(** * Plottable's [Table] component: the grid layout engine of [src/table.ts]

    This development embeds the TypeScript class [Plottable.Table] in Rocq
    and proves the properties of its layout algorithm: normalisation of the
    grid, minimum-size aggregation, weight inference, proportional
    distribution of the free space and the assignment of offsets to the
    children.

    Conventions of the embedding.
    - JavaScript numbers are idealised as exact rationals ([Qc]); IEEE
      rounding, infinities and overflow are not represented.  The
      statements on the class give the numbers the code computes by the
      expressions the code computes them with; an identity between two
      such expressions that needs the laws of exact arithmetic is marked
      as such.  The module [Double] replays the allocator and the running
      offsets in binary64, to show where rounding tells two expressions
      apart.
    - A JavaScript expression that may evaluate to something that is not a
      number is a [value]: [None] stands for [undefined], for a hole of a
      sparse array read by index, and for [NaN].  The code never tells these
      apart: [d3.sum] skips all of them and [+] sends all of them to [NaN].
    - Arrays of components are dense lists.  The arrays of weights may
      have holes (a weight can be stored at any index), so they are lists
      of optional cells, [None] being a hole.
    - The children are leaves: a component is the record of what its
      queries answer, and a call of a child's [computeLayout] is recorded
      in a log of invocations.  A child that is itself a table can throw
      from a query or from its layout, which aborts the call of the
      parent; what a call of the parent has resolved and laid out is
      therefore stated for the calls that return, and the failure of the
      check of the space for the calls that fail before any child is laid
      out.
    - A method is a function from the receiver's state to an [Outcome] and
      the receiver's state afterwards: an exception does not roll back the
      assignments made before it was thrown. *)

From Stdlib Require Import QArith Qcanon.
From Corelib Require Import PrimFloat.
From stdpp Require Import base numbers list strings relations.

Open Scope Qc_scope.

(** ** Numbers and values *)

Abbreviation number := Qc.

Definition num (z : Z) : number := Qc_of_Z z.

Abbreviation value := (option Qc).

(** [a + b] on values: anything that is not a number yields [NaN]. *)
Definition vadd (a b : value) : value :=
  match a, b with
  | Some x, Some y => Some (x + y)
  | _, _ => None
  end.

(** [a < b] and [a > b] on numbers, as booleans. *)
Definition ltb (a b : number) : bool := bool_decide (a < b).
Definition gtb (a b : number) : bool := bool_decide (b < a).

(** ** Arrays *)

Module Array.

(** [arr[i] = v] on a dense array whose index [i] is at most its length:
    an element in range is replaced, a write at the length appends. *)
Definition store {A} (arr : list A) (i : nat) (v : A) : list A :=
  if decide (i < length arr)%nat then <[i := v]> arr else arr ++ [v].

(** [arr.reduce(f)] without an initial value: the first element starts the
    accumulator, and an empty array has no result (a TypeError). *)
Definition reduce {A} (f : A → A → A) (arr : list A) : option A :=
  match arr with
  | [] => None
  | a :: rest => Some (foldl f a rest)
  end.

(** [arr.forEach((x, index) => ...)], the variables the callback assigns
    to being threaded as an accumulator. *)
Fixpoint forEach_from {A St} (f : St → A → nat → St) (arr : list A) (index : nat) (s : St) : St :=
  match arr with
  | [] => s
  | x :: rest => forEach_from f rest (S index) (f s x index)
  end.

Definition forEach {A St} (f : St → A → nat → St) (arr : list A) (s : St) : St :=
  forEach_from f arr 0%nat s.

(** [for (var i = 0; i < n; i++) body], the assigned variables being
    threaded as an accumulator. *)
Definition for_upto {St} (n : nat) (body : St → nat → St) (s : St) : St :=
  foldl body s (seq 0 n).

End Array.

(** Arrays with holes: a cell is [None] when nothing was ever stored at
    its index. *)
Module Sparse.

(** [arr[i]], [None] standing for [undefined]: a hole or an index past the
    end. *)
Definition get {A} (arr : list (option A)) (i : nat) : option A :=
  mjoin (arr !! i).

(** [arr[i] = v]: a write past the end leaves holes in between. *)
Definition store {A} (arr : list (option A)) (i : nat) (v : A) : list (option A) :=
  if decide (i < length arr)%nat then <[i := Some v]> arr
  else arr ++ replicate (i - length arr) None ++ [Some v].

(** [arr.map(f)]: holes are skipped and stay holes. *)
Definition map {A B} (f : A → B) (arr : list (option A)) : list (option B) :=
  fmap (M := list) (fmap (M := option) f) arr.

End Sparse.

(** ** The functions of d3 the class uses

    d3 (version 3) is an external library; these definitions follow its
    documented behaviour. *)

Module d3.

(** [d3.sum(array)]: the sum of the numbers of the array, skipping
    everything that is not a number; 0 for an empty array. *)
Definition sum (array : list value) : number :=
  foldl (λ s a, match a with Some x => s + x | None => s end) 0 array.

(** [d3.max(array, f)]: the first value is the candidate and a later one
    replaces it when strictly greater; [undefined] for an empty array. *)
Definition max {A B} (gt : B → B → bool) (array : list A) (f : A → B) : option B :=
  match f <$> array with
  | [] => None
  | a :: rest => Some (foldl (λ a b, if gt b a then b else a) a rest)
  end.

(** [d3.min] of the lengths of the arguments of [d3.zip]. *)
Definition min_length {A} (arrays : list (list A)) : nat :=
  match length <$> arrays with
  | [] => 0%nat
  | a :: rest => foldl Nat.min a rest
  end.

(** [d3.zip(a, b)]: the pairs [[a[i], b[i]]] for [i] below the length of
    the shorter array. *)
Definition zip {A B} (a : list A) (b : list B) : list (A * B) :=
  base.zip a b.

(** [d3.transpose(matrix)] is [d3.zip] applied to the rows: no column for
    an empty matrix, and otherwise as many columns as the shortest row is
    long, column [i] holding [row[i]] for every row in order. *)
Definition transpose {A} (matrix : list (list A)) : list (list A) :=
  (λ i, omap (λ row : list A, row !! i) matrix) <$> seq 0 (min_length matrix).

End d3.

(** ** Errors, outcomes and methods *)

(** The exceptions of the class, under the names the specification gives
    them; [TypeError] is the exception of the JavaScript runtime itself
    (reduce of an empty array, a property read on [undefined]). *)
Inductive Error :=
  | InvalidMutation    (* "addComponent cannot be called after anchoring (for the moment)" *)
  | CellOccupied       (* "addComponent cannot be called on a cell where a component already exists (for the moment)" *)
  | NotSettable        (* "Row minimum cannot be directly set on Table", and the same for Col *)
  | InsufficientSpace  (* "Insufficient Space" *)
  | TypeError.

Inductive Outcome (A : Type) :=
  | Return (a : A)
  | Throw (e : Error).
Arguments Return {A} a.
Arguments Throw {A} e.

Global Instance Error_eq_dec : EqDecision Error.
Proof. solve_decision. Defined.

Global Instance Outcome_eq_dec {A} `{EqDecision A} : EqDecision (Outcome A).
Proof. solve_decision. Defined.

(** A computation on a state [St] that returns or throws; the state it
    leaves is kept in both cases. *)
Definition M (St A : Type) : Type := St → Outcome A * St.

Definition ret {St A} (a : A) : M St A := λ s, (Return a, s).

Definition throw {St A} (e : Error) : M St A := λ s, (Throw e, s).

Definition bind {St A B} (m : M St A) (k : A → M St B) : M St B :=
  λ s, match m s with
       | (Return a, s') => k a s'
       | (Throw e, s') => (Throw e, s')
       end.

Definition get {St} : M St St := λ s, (Return s, s).

Definition modify {St} (f : St → St) : M St unit := λ s, (Return tt, f s).

(** A pure computation that may throw, run inside a method. *)
Definition liftO {St A} (o : Outcome A) : M St A := λ s, (o, s).

Notation "'let!' x := m 'in' k" := (bind m (λ x, k))
  (at level 10, x name, m at level 100, k at level 200).
Notation "'do!' m 'in' k" := (bind m (λ _, k))
  (at level 10, m at level 100, k at level 200).

(** The same for computations without state. *)
Definition obind {A B} (m : Outcome A) (k : A → Outcome B) : Outcome B :=
  match m with
  | Return a => k a
  | Throw e => Throw e
  end.

(** [arr.map(f)] where [f] may throw: the first exception aborts the map. *)
Fixpoint map_throwing {A B} (f : A → nat → Outcome B) (arr : list A) (index : nat)
  : Outcome (list B) :=
  match arr with
  | [] => Return []
  | x :: rest =>
      obind (f x index) (λ y,
      obind (map_throwing f rest (S index)) (λ ys,
      Return (y :: ys)))
  end.

(** The same on an array with holes, which are skipped. *)
Definition map_throwing_sparse {A B} (f : A → nat → Outcome B) (arr : list (option A))
  : Outcome (list (option B)) :=
  map_throwing (λ cell i, match cell with
                          | None => Return None
                          | Some x => obind (f x i) (λ y, Return (Some y))
                          end) arr 0%nat.

(** ** Components *)

(** What a child answers to the queries of the table.  [cName] is
    [constructor.name], the name of the class the object was made by. *)
Record Component := mkComponent {
  cName : string;
  cRowMinimum : number;
  cColMinimum : number;
  cIsFixedWidth : bool;
  cIsFixedHeight : bool;
}.

Global Instance Component_eq_dec : EqDecision Component.
Proof. solve_decision. Defined.

(** Modelled from the spec: the base class [Component] is not among the
    sources.  [new Component()] is the placeholder of the specification, a
    component with zero minimum size that is fixed in both axes; its
    constructor is the class [Component] itself. *)
Definition newComponent : Component :=
  {| cName := "Component"; cRowMinimum := 0; cColMinimum := 0;
     cIsFixedWidth := true; cIsFixedHeight := true |}.

(** One invocation [component.computeLayout(xOffset, yOffset, availableWidth,
    availableHeight)] on a child. *)
Record LayoutCall := mkLayoutCall {
  callee : Component;
  callXOffset : value;
  callYOffset : value;
  callWidth : value;
  callHeight : value;
}.

Global Instance LayoutCall_eq_dec : EqDecision LayoutCall.
Proof. solve_decision. Defined.

(** The surface a component is anchored to ([D3.Selection]). *)
Inductive Selection := selection (handle : nat).

Global Instance Selection_eq_dec : EqDecision Selection.
Proof. solve_decision. Defined.

(** ** The class [Table] *)

(** The fields of a [Table].  [rowWeights] and [colWeights] are arrays with
    holes whose cells hold [null] ([Some None]) or an explicit weight
    ([Some (Some w)]).  [rowMinimums] and [colMinimums] are [undefined] until
    the first query assigns them; they are never read before that, and the
    empty list stands for this state.  [element] is the field of the base
    class that is [null] until the component is anchored. *)
Record Table := mkTable {
  rowPadding : number;
  colPadding : number;
  rows : list (list Component);
  rowMinimums : list value;
  colMinimums : list value;
  rowWeights : list (option (option number));
  colWeights : list (option (option number));
  nRows : nat;
  nCols : nat;
  element : option Selection;
}.

Global Instance Table_eq_dec : EqDecision Table.
Proof. solve_decision. Defined.

Definition set_padding (rp cp : number) (t : Table) : Table :=
  mkTable rp cp (rows t) (rowMinimums t) (colMinimums t)
          (rowWeights t) (colWeights t) (nRows t) (nCols t) (element t).

Definition set_rows (v : list (list Component)) (t : Table) : Table :=
  mkTable (rowPadding t) (colPadding t) v (rowMinimums t) (colMinimums t)
          (rowWeights t) (colWeights t) (nRows t) (nCols t) (element t).

Definition set_rowMinimums (v : list value) (t : Table) : Table :=
  mkTable (rowPadding t) (colPadding t) (rows t) v (colMinimums t)
          (rowWeights t) (colWeights t) (nRows t) (nCols t) (element t).

Definition set_colMinimums (v : list value) (t : Table) : Table :=
  mkTable (rowPadding t) (colPadding t) (rows t) (rowMinimums t) v
          (rowWeights t) (colWeights t) (nRows t) (nCols t) (element t).

Definition set_rowWeights (v : list (option (option number))) (t : Table) : Table :=
  mkTable (rowPadding t) (colPadding t) (rows t) (rowMinimums t) (colMinimums t)
          v (colWeights t) (nRows t) (nCols t) (element t).

Definition set_colWeights (v : list (option (option number))) (t : Table) : Table :=
  mkTable (rowPadding t) (colPadding t) (rows t) (rowMinimums t) (colMinimums t)
          (rowWeights t) v (nRows t) (nCols t) (element t).

Definition set_nRows (v : nat) (t : Table) : Table :=
  mkTable (rowPadding t) (colPadding t) (rows t) (rowMinimums t) (colMinimums t)
          (rowWeights t) (colWeights t) v (nCols t) (element t).

Definition set_nCols (v : nat) (t : Table) : Table :=
  mkTable (rowPadding t) (colPadding t) (rows t) (rowMinimums t) (colMinimums t)
          (rowWeights t) (colWeights t) (nRows t) v (element t).

Definition set_element (v : option Selection) (t : Table) : Table :=
  mkTable (rowPadding t) (colPadding t) (rows t) (rowMinimums t) (colMinimums t)
          (rowWeights t) (colWeights t) (nRows t) (nCols t) v.

(** A method of [Table]: a computation on the fields of the receiver. *)
Definition Method (A : Type) : Type := M Table A.

(** [constructor(rows)]; a [null] entry of the argument is [None]. *)
Definition constructor (rows : list (list (option Component))) : Table :=
  let cleanOutNulls (c : option Component) :=
    match c with None => newComponent | Some c => c end in
  let rows : list (list Component) :=
    (λ row : list (option Component), cleanOutNulls <$> row) <$> rows in
  {| rowPadding := 0; colPadding := 0;
     rows := rows;
     rowMinimums := []; colMinimums := [];
     nRows := length rows;
     nCols := if decide (0 < length rows)%nat
              then default 0%nat (d3.max (λ b a, bool_decide (a < b)%nat) rows length)
              else 0%nat;
     rowWeights := (λ _ : list Component, Some None) <$> rows;
     colWeights := (λ _ : list Component, Some None) <$> d3.transpose rows;
     element := None |}.

(** The inner loop of [padTableToSize] on [this.rows[i]]. *)
Definition padRow (nCols : nat) (row : list Component) : list Component :=
  Array.for_upto nCols (λ row j,
    match row !! j with
    | None => Array.store row j newComponent
    | Some _ => row
    end) row.

(** The body of the first loop of [padTableToSize], for the row index [i]:
    the row is created when missing, then filled up to [nCols] slots. *)
Definition padTableRow (nCols : nat) (t : Table) (i : nat) : Table :=
  let t := match rows t !! i with
           | None =>
               set_rowWeights (Sparse.store (rowWeights t) i None)
                 (set_rows (Array.store (rows t) i []) t)
           | Some _ => t
           end in
  match rows t !! i with
  | Some row => set_rows (<[i := padRow nCols row]> (rows t)) t
  | None => t
  end.

(** The body of the second loop of [padTableToSize], for the column index
    [j]. *)
Definition padColWeight (t : Table) (j : nat) : Table :=
  match Sparse.get (colWeights t) j with
  | None => set_colWeights (Sparse.store (colWeights t) j None) t
  | Some _ => t
  end.

(** [padTableToSize(nRows, nCols)] *)
Definition padTableToSize (nRows nCols : nat) (t : Table) : Table :=
  let t := Array.for_upto nRows (padTableRow nCols) t in
  Array.for_upto nCols padColWeight t.

(** [addComponent(row, col, component)] *)
Definition addComponent (row col : nat) (component : Component) : Method unit :=
  let! this := get in
  if decide (element this ≠ None) then throw InvalidMutation else
  do! modify (set_nRows (Nat.max row (nRows this))) in
  do! modify (set_nCols (Nat.max col (nCols this))) in
  let! this := get in
  do! modify (padTableToSize (nRows this + 1) (nCols this + 1)) in
  let! this := get in
  match rows this !! row ≫= (λ r, r !! col) with
  | None => throw TypeError
  | Some currentComponent =>
      if decide (cName currentComponent ≠ "Component") then throw CellOccupied else
      match rows this !! row with
      | None => throw TypeError
      | Some r => modify (set_rows (<[row := Array.store r col component]> (rows this)))
      end
  end.

(** Modelled from the spec: [anchor(element)] starts with the [anchor] of
    the base class, which is not among the sources.  It is the one-way
    transition to the attached state, which [addComponent] reads from
    [this.element]; the anchoring of the children is not represented. *)
Definition anchor (e : Selection) : Method unit :=
  modify (set_element (Some e)).

(** [padding(rowPadding, colPadding)] *)
Definition padding (rowPadding colPadding : number) : Method unit :=
  modify (set_padding rowPadding colPadding).

(** [rowWeight(index, weight)] *)
Definition rowWeight (index : nat) (weight : number) : Method unit :=
  modify (λ t, set_rowWeights (Sparse.store (rowWeights t) index (Some weight)) t).

(** [colWeight(index, weight)] *)
Definition colWeight (index : nat) (weight : number) : Method unit :=
  modify (λ t, set_colWeights (Sparse.store (colWeights t) index (Some weight)) t).

(** [rowMinimum(newVal?)]: [newVal] is [None] when the argument is left out. *)
Definition rowMinimum (newVal : option number) : Method number :=
  match newVal with
  | Some _ => throw NotSettable
  | None =>
      do! modify (λ t,
        set_rowMinimums ((λ row, d3.max gtb row cRowMinimum) <$> rows t) t) in
      let! this := get in
      ret (d3.sum (rowMinimums this)
           + rowPadding this * (num (Z.of_nat (length (rows this))) - 1))
  end.

(** [colMinimum(newVal?)] *)
Definition colMinimum (newVal : option number) : Method number :=
  match newVal with
  | Some _ => throw NotSettable
  | None =>
      let! this := get in
      let cols := d3.transpose (rows this) in
      do! modify (set_colMinimums ((λ col, d3.max gtb col cColMinimum) <$> cols)) in
      let! this := get in
      ret (d3.sum (colMinimums this)
           + colPadding this * (num (Z.of_nat (length cols)) - 1))
  end.

(** [Table.fixedSpace(componentGroup, fixityAccessor)] *)
Definition fixedSpace (componentGroup : list (list Component))
    (fixityAccessor : Component → bool) : Outcome bool :=
  let all (bools : list bool) : Outcome bool :=
    match Array.reduce andb bools with
    | Some b => Return b
    | None => Throw TypeError
    end in
  let groupIsFixed (components : list Component) :=
    all (fixityAccessor <$> components) in
  obind (map_throwing (λ g _, groupIsFixed g) componentGroup 0%nat) all.

(** [isFixedWidth()] *)
Definition isFixedWidth : Method bool :=
  let! this := get in
  let cols := d3.transpose (rows this) in
  liftO (fixedSpace cols cIsFixedWidth).

(** [isFixedHeight()] *)
Definition isFixedHeight : Method bool :=
  let! this := get in
  liftO (fixedSpace (rows this) cIsFixedHeight).

(** The callback of the map in [calcComponentWeights], for the weight [w]
    stored at index [i]. *)
Definition componentWeight (componentGroups : list (list Component))
    (fixityAccessor : Component → bool) (w : option number) (i : nat) : Outcome number :=
  match w with
  | Some w => Return w
  | None =>
      match componentGroups !! i with
      | None => Throw TypeError
      | Some group =>
          let fixities := fixityAccessor <$> group in
          match Array.reduce andb fixities with
          | None => Throw TypeError
          | Some allFixed => Return (if allFixed then 0 else 1)
          end
      end
  end.

(** [Table.calcComponentWeights(setWeights, componentGroups, fixityAccessor)] *)
Definition calcComponentWeights (setWeights : list (option (option number)))
    (componentGroups : list (list Component))
    (fixityAccessor : Component → bool) : Outcome (list value) :=
  map_throwing_sparse (componentWeight componentGroups fixityAccessor) setWeights.

(** [Table.calcProportionalSpace(weights, freeSpace)] *)
Definition calcProportionalSpace (weights : list value) (freeSpace : number) : list value :=
  let weightSum := d3.sum weights in
  if decide (weightSum = 0) then
    let numGroups := num (Z.of_nat (length weights)) in
    Sparse.map (λ w, freeSpace / numGroups) weights
  else
    Sparse.map (λ w, freeSpace * w / weightSum) weights.

(** The state of a layout pass: the fields of the table and the log of the
    invocations of [computeLayout] on the children, oldest first. *)
Definition Layout (A : Type) : Type := M (Table * list LayoutCall) A.

(** A method of the table called during the pass. *)
Definition onTable {A} (m : Method A) : Layout A :=
  λ s, let '(o, t) := m s.1 in (o, (t, s.2)).

(** The two nested [forEach] of [computeLayout]: [childYOffset] and
    [childXOffset] are the variables the callbacks assign to. *)
Definition layoutChildren (this : Table) (colWidths rowHeights : list value)
    (log : list LayoutCall) : list LayoutCall :=
  snd (Array.forEach (λ '(childYOffset, log) (row : list Component) rowIndex,
    let '(childXOffset, log) :=
      Array.forEach (λ '(childXOffset, log) (component : Component) colIndex,
        let log := log ++ [mkLayoutCall component childXOffset childYOffset
                             (Sparse.get colWidths colIndex)
                             (Sparse.get rowHeights rowIndex)] in
        (vadd childXOffset
              (vadd (Sparse.get colWidths colIndex) (Some (colPadding this))), log))
        row (Some 0, log) in
    (vadd childYOffset
          (vadd (Sparse.get rowHeights rowIndex) (Some (rowPadding this))), log))
    (rows this) (Some 0, log)).

(** [computeLayout(xOffset, yOffset, availableWidth, availableHeight)].
    The call of the base class records its four arguments on the component;
    [this.availableWidth] and [this.availableHeight] are read back right
    after, so the arguments are used in their place. *)
Definition computeLayout (xOffset yOffset availableWidth availableHeight : number)
  : Layout unit :=
  let! colMin := onTable (colMinimum None) in
  let freeWidth := availableWidth - colMin in
  let! rowMin := onTable (rowMinimum None) in
  let freeHeight := availableHeight - rowMin in
  if ltb freeWidth 0 || ltb freeHeight 0 then throw InsufficientSpace else
  let! s := get in
  let this := s.1 in
  let cols := d3.transpose (rows this) in
  let! rowWeights := liftO (calcComponentWeights (rowWeights this) (rows this) cIsFixedHeight) in
  let! colWeights := liftO (calcComponentWeights (colWeights this) cols cIsFixedWidth) in
  let rowProportionalSpace := calcProportionalSpace rowWeights freeHeight in
  let colProportionalSpace := calcProportionalSpace colWeights freeWidth in
  let sumPair (p : value * value) := vadd p.1 p.2 in
  let rowHeights := sumPair <$> d3.zip rowProportionalSpace (rowMinimums this) in
  let colWidths := sumPair <$> d3.zip colProportionalSpace (colMinimums this) in
  modify (λ s, (s.1, layoutChildren s.1 colWidths rowHeights s.2)).


(** ** The arithmetic in binary64 *)

(** The allocator and the running offsets again, on arrays of numbers
    without hole and in IEEE 754 binary64, the numbers of JavaScript. *)
Module Double.

(** [array.length] as a number (exact below 2^53). *)
Definition num (n : nat) : float := Nat.iter n (λ x, x + 1)%float 0%float.

(** [d3.sum(array)]: a [NaN] is skipped. *)
Definition sum (array : list float) : float :=
  foldl (λ s a, if PrimFloat.is_nan a then s else (s + a)%float) 0%float array.

(** [Table.calcProportionalSpace(weights, freeSpace)] *)
Definition calcProportionalSpace (weights : list float) (freeSpace : float)
  : list float :=
  let weightSum := sum weights in
  if (weightSum =? 0)%float then
    let numGroups := num (length weights) in
    (λ w, freeSpace / numGroups)%float <$> weights
  else
    (λ w, freeSpace * w / weightSum)%float <$> weights.

(** [d3.zip(space, minimums).map(sumPair)] *)
Definition sizes (space minimums : list float) : list float :=
  (λ p : float * float, (p.1 + p.2)%float) <$> d3.zip space minimums.

(** The inner [forEach] of [computeLayout] on a row of as many cells as
    there are widths, started with [childXOffset]: the horizontal offsets
    handed to the children, each followed by
    [childXOffset += colWidths[colIndex] + this.colPadding]. *)
Fixpoint offsets (childXOffset : float) (colWidths : list float)
    (colPadding : float) : list float :=
  match colWidths with
  | [] => []
  | width :: rest =>
      childXOffset
        :: offsets (childXOffset + (width + colPadding))%float rest colPadding
  end.

End Double.


(** ** Notions used in the statements *)

(** A row filled with placeholders up to [n] slots. *)
Definition padded (n : nat) (row : list Component) : list Component :=
  row ++ replicate (n - length row) newComponent.

(** Every row has [n] slots. *)
Definition rectangular (n : nat) (grid : list (list Component)) : Prop :=
  Forall (λ row, length row = n) grid.

(** The component in the slot [(row, col)] of a grid, if there is one. *)
Definition cell (grid : list (list Component)) (row col : nat) : option Component :=
  grid !! row ≫= λ r, r !! col.

(** A component made by the base class itself, which is what
    [addComponent] takes for a placeholder. *)
Definition isPlaceholder (c : Component) : Prop := cName c = "Component".

Global Instance isPlaceholder_dec c : Decision (isPlaceholder c).
Proof. unfold isPlaceholder. apply _. Defined.

(** The slot [(row, col)] exists and holds a component that is not a
    placeholder. *)
Definition occupied (t : Table) (row col : nat) : Prop :=
  match cell (rows t) row col with
  | Some c => ¬ isPlaceholder c
  | None => False
  end.

Global Instance occupied_dec t row col : Decision (occupied t row col).
Proof. unfold occupied. destruct (cell (rows t) row col); apply _. Defined.

(** The table [addComponent(row, col, _)] works on once it has raised the
    counters and padded the grid. *)
Definition grown (row col : nat) (t : Table) : Table :=
  let n := Nat.max row (nRows t) in
  let m := Nat.max col (nCols t) in
  padTableToSize (n + 1) (m + 1) (set_nCols m (set_nRows n t)).

(** [m] is the maximum of the numbers [l], or [undefined] when there is
    none. *)
Definition is_maximum (m : value) (l : list number) : Prop :=
  match m with
  | None => l = []
  | Some m => m ∈ l ∧ ∀ v, v ∈ l → v ≤ m
  end.

(** The minimum of every row and of every column of the transposed grid,
    and the totals the minimum queries return. *)
Definition rowMins (t : Table) : list value :=
  (λ row, d3.max gtb row cRowMinimum) <$> rows t.

Definition colMins (t : Table) : list value :=
  (λ col, d3.max gtb col cColMinimum) <$> d3.transpose (rows t).

Definition totalRowMinimum (t : Table) : number :=
  d3.sum (rowMins t) + rowPadding t * (num (Z.of_nat (length (rows t))) - 1).

Definition totalColMinimum (t : Table) : number :=
  d3.sum (colMins t)
  + colPadding t * (num (Z.of_nat (length (d3.transpose (rows t)))) - 1).

(** The table with both caches of minimums recomputed. *)
Definition refreshed (t : Table) : Table :=
  set_rowMinimums (rowMins t) (set_colMinimums (colMins t) t).

(** The running offset of the cell of index [k] along an axis, computed
    the way [computeLayout] computes it: it starts at 0 and every cell [j]
    before [k] advances it by [offset += size j + padding]. *)
Definition offsetOf (size : nat → value) (padding : number) (k : nat) : value :=
  foldl (λ offset j, vadd offset (vadd (size j) (Some padding)))
        (Some 0) (seq 0 k).

(** [size 0 + ... + size (k - 1)], added from 0 the way JavaScript adds:
    the sum the closed form of an offset is made of. *)
Definition sumBefore (size : nat → value) (k : nat) : value :=
  foldl vadd (Some 0) (size <$> seq 0 k).

(** The row heights and the column widths of a layout: proportional space
    plus minimum, pair by pair. *)
Definition sizes (space minimums : list value) : list value :=
  (λ p : value * value, vadd p.1 p.2) <$> d3.zip space minimums.

(** The invocations a layout makes: one for every cell, row by row and
    left to right in a row, at the offsets of the cell and with the width
    of its column and the height of its row. *)
Definition expectedCalls (t : Table) (colWidth rowHeight : nat → value)
  : list LayoutCall :=
  concat (imap (λ r (row : list Component),
            imap (λ c component,
              mkLayoutCall component
                (offsetOf colWidth (colPadding t) c)
                (offsetOf rowHeight (rowPadding t) r)
                (colWidth c) (rowHeight r)) row) (rows t)).

(** The counters [nRows] and [nCols] bound the grid: no row index and no
    column index in use exceeds them. *)
Definition counters_cover (t : Table) : Prop :=
  (length (rows t) ≤ nRows t + 1)%nat
  ∧ Forall (λ row, (length row ≤ nCols t + 1)%nat) (rows t).

Global Instance counters_cover_dec t : Decision (counters_cover t).
Proof. unfold counters_cover. apply _. Defined.

(** The tables a program can build: the constructor, then any sequence of
    method calls, whether they return or throw. *)
Inductive reachable : Table → Prop :=
  | reach_constructor input :
      reachable (constructor input)
  | reach_addComponent t row col component :
      reachable t → reachable (addComponent row col component t).2
  | reach_anchor t e :
      reachable t → reachable (anchor e t).2
  | reach_padding t rp cp :
      reachable t → reachable (padding rp cp t).2
  | reach_rowWeight t index weight :
      reachable t → reachable (rowWeight index weight t).2
  | reach_colWeight t index weight :
      reachable t → reachable (colWeight index weight t).2
  | reach_rowMinimum t newVal :
      reachable t → reachable (rowMinimum newVal t).2
  | reach_colMinimum t newVal :
      reachable t → reachable (colMinimum newVal t).2
  | reach_computeLayout t log x y w h :
      reachable t → reachable (computeLayout x y w h (t, log)).2.1.

(** ** [render] and the calls of a program *)

(** [render()]: the two nested [forEach] call [render] on every child; the
    calls are recorded in a log of the components rendered, oldest first. *)
Definition render : M (Table * list Component) unit :=
  modify (λ s,
    (s.1,
     Array.forEach (λ log (row : list Component) rowIndex,
       Array.forEach (λ log (component : Component) colIndex,
         log ++ [component]) row log) (rows s.1) s.2)).

(** One call of a method of the class, from the table it finds to the table
    it leaves, whether the call returns or throws. *)
Inductive step : Table → Table → Prop :=
  | step_addComponent t row col component :
      step t (addComponent row col component t).2
  | step_anchor t e :
      step t (anchor e t).2
  | step_padding t rp cp :
      step t (padding rp cp t).2
  | step_rowWeight t index weight :
      step t (rowWeight index weight t).2
  | step_colWeight t index weight :
      step t (colWeight index weight t).2
  | step_rowMinimum t newVal :
      step t (rowMinimum newVal t).2
  | step_colMinimum t newVal :
      step t (colMinimum newVal t).2
  | step_isFixedWidth t :
      step t (isFixedWidth t).2
  | step_isFixedHeight t :
      step t (isFixedHeight t).2
  | step_computeLayout t log x y w h :
      step t (computeLayout x y w h (t, log)).2.1
  | step_render t log :
      step t (render (t, log)).2.1.

(** The arrays of weights follow the grid: one cell for every row and one
    for every column of the transposed grid, none of them a hole. *)
Definition aligned (t : Table) : Prop :=
  length (rowWeights t) = length (rows t)
  ∧ Forall is_Some (rowWeights t)
  ∧ length (colWeights t) = length (d3.transpose (rows t))
  ∧ Forall is_Some (colWeights t).

Global Instance aligned_dec t : Decision (aligned t).
Proof. unfold aligned. apply _. Defined.

(** No explicit weight of the array is negative. *)
Definition nonnegative (weights : list (option (option number))) : Prop :=
  ∀ i w, Sparse.get weights i = Some (Some w) → 0 ≤ w.

(** * Properties *)

(** ** Arithmetic of [d3.sum] *)

Lemma num_succ (n : nat) : num (Z.of_nat (S n)) = num (Z.of_nat n) + 1.
Proof.
  unfold num. rewrite Nat2Z.inj_succ, <- Z.add_1_r, Z2Qc_inj_add, Z2Qc_inj_1.
  reflexivity.
Qed.

Lemma num_pos_ne_0 (n : nat) : n ≠ 0%nat → num (Z.of_nat n) ≠ 0.
Proof.
  intros Hn Heq. unfold num in Heq. rewrite <- Z2Qc_inj_0 in Heq.
  apply Z2Qc_inj in Heq. lia.
Qed.

Lemma d3_sum_from (a : number) (array : list value) :
  foldl (λ s v, match v with Some x => s + x | None => s end) a array
  = a + d3.sum array.
Proof.
  unfold d3.sum. revert a.
  induction array as [|v array IH]; intros a; simpl.
  - ring.
  - rewrite IH. symmetry. rewrite IH. destruct v; ring.
Qed.

Lemma d3_sum_nil : d3.sum [] = 0.
Proof. reflexivity. Qed.

Lemma d3_sum_cons_Some (x : number) (array : list value) :
  d3.sum (Some x :: array) = x + d3.sum array.
Proof. unfold d3.sum at 1. simpl. rewrite d3_sum_from. ring. Qed.

Lemma d3_sum_cons_None (array : list value) :
  d3.sum (None :: array) = d3.sum array.
Proof. unfold d3.sum at 1. simpl. rewrite d3_sum_from. ring. Qed.

(** The sum of a constant over the numbers of a hole-free array. *)
Lemma d3_sum_const (c : number) (w : list number) :
  d3.sum (Sparse.map (λ _, c) (Some <$> w)) = num (Z.of_nat (length w)) * c.
Proof.
  induction w as [|x w IH].
  - change (0 = Qc_of_Z 0 * c). rewrite Z2Qc_inj_0. ring.
  - change (d3.sum (Some c :: Sparse.map (λ _, c) (Some <$> w))
            = num (Z.of_nat (S (length w))) * c).
    rewrite d3_sum_cons_Some, num_succ, IH. ring.
Qed.

Lemma Sparse_map_length {A B} (f : A → B) (arr : list (option A)) :
  length (Sparse.map f arr) = length arr.
Proof. unfold Sparse.map. apply length_fmap. Qed.

Lemma Sparse_map_lookup {A B} (f : A → B) (arr : list (option A)) (i : nat) :
  Sparse.map f arr !! i = fmap (fmap f) (arr !! i).
Proof. unfold Sparse.map. apply list_lookup_fmap. Qed.

Lemma d3_sum_scaled (c s : number) (array : list value) :
  d3.sum (Sparse.map (λ w, c * w / s) array) = c * d3.sum array / s.
Proof.
  induction array as [|[x|] array IH]; simpl.
  - rewrite d3_sum_nil. unfold Qcdiv. ring.
  - rewrite !d3_sum_cons_Some, IH. unfold Qcdiv. ring.
  - rewrite !d3_sum_cons_None, IH. ring.
Qed.

(** ** Proportional allocation *)

(** The allocator on an empty weight vector keeps none of the free space:
    it returns no share at all. *)
Lemma calcProportionalSpace_empty_drops_space :
  0 ≤ num 10
  ∧ calcProportionalSpace (Some <$> []) (num 10) = []
  ∧ d3.sum (calcProportionalSpace (Some <$> []) (num 10)) ≠ num 10.
Proof. split; [|split]; [compute_done | reflexivity | compute_done]. Qed.

(** The count of the even split is the length of the array, holes
    included: two weights 0 around two holes share 20 as four would, and
    half of the free space goes to no entry. *)
Lemma calcProportionalSpace_holes_drop_space :
  calcProportionalSpace [Some (num 0); None; None; Some (num 0)] (num 20)
  = [Some (num 5); None; None; Some (num 5)]
  ∧ d3.sum (calcProportionalSpace [Some (num 0); None; None; Some (num 0)]
              (num 20)) = num 10.
Proof. split; compute_done. Qed.

(** In binary64 the shares are rounded one by one: six shares of a free
    space of 7 are 1.1666666666666667 each and add up to
    7.000000000000001. *)
Lemma calcProportionalSpace_shares_are_rounded :
  Double.sum (Double.calcProportionalSpace (replicate 6 1%float) 7%float)
  = 0x1.c000000000001p+2%float
  ∧ Double.sum (Double.calcProportionalSpace (replicate 6 1%float) 7%float)
    ≠ 7%float.
Proof. vm_compute. split; [reflexivity|discriminate]. Qed.

(** C1 (amended).  For a vector [w] of weights and any free space the
    allocator returns one share per entry, a hole of [w] staying a hole:
    [freeSpace / w.length] for every entry when the weights sum to 0, and
    [freeSpace * w[i] / sum(w)] for the entry [i] otherwise.  Weights
    [1,1] with 10 give [5,5], weights [0,0] with 10 give [5,5] and weights
    [1,3] with 20 give [5,15]; the empty vector gives no share, and two
    weights 0 around two holes with 20 give 5 each. *)
Theorem calcProportionalSpace_shares :
  (∀ (w : list value) (freeSpace : number),
     let shares := calcProportionalSpace w freeSpace in
     let weightSum := d3.sum w in
     length shares = length w
     ∧ (∀ i, Sparse.get w i = None → Sparse.get shares i = None)
     ∧ (weightSum = 0 → ∀ i wi, Sparse.get w i = Some wi →
          Sparse.get shares i
          = Some (freeSpace / num (Z.of_nat (length w))))
     ∧ (weightSum ≠ 0 → ∀ i wi, Sparse.get w i = Some wi →
          Sparse.get shares i = Some (freeSpace * wi / weightSum)))
  ∧ calcProportionalSpace [Some (num 1); Some (num 1)] (num 10)
    = [Some (num 5); Some (num 5)]
  ∧ calcProportionalSpace [Some (num 0); Some (num 0)] (num 10)
    = [Some (num 5); Some (num 5)]
  ∧ calcProportionalSpace [Some (num 1); Some (num 3)] (num 20)
    = [Some (num 5); Some (num 15)]
  ∧ calcProportionalSpace [] (num 10) = []
  ∧ calcProportionalSpace [Some (num 0); None; None; Some (num 0)] (num 20)
    = [Some (num 5); None; None; Some (num 5)].
Proof.
  split; [|split_and!; compute_done].
  intros w freeSpace shares weightSum. subst shares.
  assert (Hget : ∀ (f : number → number) i,
            Sparse.get (Sparse.map f w) i = f <$> Sparse.get w i).
  { intros f i. unfold Sparse.get. rewrite Sparse_map_lookup.
    by destruct (w !! i) as [[x|]|]. }
  unfold calcProportionalSpace. fold weightSum.
  destruct (decide (weightSum = 0)) as [Hz|Hnz].
  - split_and!.
    + by rewrite Sparse_map_length.
    + intros i Hi. by rewrite Hget, Hi.
    + intros _ i wi Hi. by rewrite Hget, Hi.
    + intros Hnz. by destruct Hnz.
  - split_and!.
    + by rewrite Sparse_map_length.
    + intros i Hi. by rewrite Hget, Hi.
    + intros Hz. by destruct Hnz.
    + intros _ i wi Hi. by rewrite Hget, Hi.
Qed.

(** The amended claim C1 at the weights [2,hole,6] and the free space 12:
    the shares are 3 and 9. *)
Lemma calcProportionalSpace_shares_witness :
  let w := [Some (num 2); None; Some (num 6)] in
  let shares := calcProportionalSpace w (num 12) in
  Sparse.get shares 0 = Some (num 12 * num 2 / d3.sum w)
  ∧ Sparse.get shares 1 = None
  ∧ Sparse.get shares 2 = Some (num 12 * num 6 / d3.sum w)
  ∧ num 12 * num 2 / d3.sum w = num 3 ∧ num 12 * num 6 / d3.sum w = num 9.
Proof.
  intros w shares.
  destruct (proj1 calcProportionalSpace_shares w (num 12))
    as (_ & Hhole & _ & Hshare).
  split_and!.
  - apply Hshare; [compute_done|done].
  - by apply Hhole.
  - apply Hshare; [compute_done|done].
  - compute_done.
  - compute_done.
Defined.

(** ** Loops and array writes *)

(** Unfolds the field updates, to compare tables field by field. *)
Ltac table_fields :=
  unfold set_padding, set_rows, set_rowMinimums, set_colMinimums,
    set_rowWeights, set_colWeights, set_nRows, set_nCols, set_element in *;
  cbn in *;
  repeat match goal with
         | H : mkTable _ _ _ _ _ _ _ _ _ _ = mkTable _ _ _ _ _ _ _ _ _ _ |- _ =>
             inversion H; clear H; subst
         end;
  try reflexivity.

Lemma for_upto_S {St} (n : nat) (body : St → nat → St) (s : St) :
  Array.for_upto (S n) body s = body (Array.for_upto n body s) n.
Proof. unfold Array.for_upto. by rewrite seq_S, foldl_app. Qed.

Lemma Sparse_get_store {A} (arr : list (option A)) (i j : nat) (v : A) :
  Sparse.get (Sparse.store arr i v) j
  = if decide (i = j) then Some v else Sparse.get arr j.
Proof.
  unfold Sparse.get, Sparse.store.
  destruct (decide (i < length arr)%nat) as [Hi|Hi].
  - destruct (decide (i = j)) as [->|Hne].
    + by rewrite list_lookup_insert_eq.
    + by rewrite list_lookup_insert_ne.
  - destruct (decide (i = j)) as [<-|Hne].
    + rewrite lookup_app_r by lia.
      rewrite lookup_app_r by (rewrite length_replicate; lia).
      rewrite length_replicate.
      by replace (i - length arr - (i - length arr))%nat with 0%nat by lia.
    + destruct (decide (j < length arr)%nat) as [Hj|Hj].
      * by rewrite lookup_app_l.
      * rewrite lookup_app_r by lia.
        rewrite (lookup_ge_None_2 arr j) by lia.
        destruct (decide (j < i)%nat) as [Hji|Hji].
        -- rewrite lookup_app_l by (rewrite length_replicate; lia).
           by rewrite lookup_replicate_2 by lia.
        -- rewrite lookup_ge_None_2; [done|].
           rewrite length_app, length_replicate. simpl. lia.
Qed.

Lemma padded_length (n : nat) (row : list Component) :
  length (padded n row) = Nat.max (length row) n.
Proof. unfold padded. rewrite length_app, length_replicate. lia. Qed.

Lemma padded_lookup (n : nat) (row : list Component) (j : nat) :
  padded n row !! j
  = if decide (j < length row)%nat then row !! j
    else if decide (j < n)%nat then Some newComponent else None.
Proof.
  unfold padded. destruct (decide (j < length row)%nat) as [Hj|Hj].
  - by rewrite lookup_app_l.
  - rewrite lookup_app_r by lia.
    destruct (decide (j < n)%nat) as [Hn|Hn].
    + by rewrite lookup_replicate_2 by lia.
    + apply lookup_ge_None_2. rewrite length_replicate. lia.
Qed.

(** The inner loop of [padTableToSize] appends placeholders, and only
    writes at the end of the row. *)
Lemma padRow_padded (nCols : nat) (row : list Component) :
  padRow nCols row = padded nCols row.
Proof.
  unfold padRow. induction nCols as [|m IH].
  - unfold padded. simpl. by rewrite app_nil_r.
  - rewrite for_upto_S, IH. clear IH.
    rewrite padded_lookup. unfold padded.
    destruct (decide (m < length row)%nat) as [Hm|Hm].
    + destruct (lookup_lt_is_Some_2 row m Hm) as [x ->].
      by replace (S m - length row)%nat with 0%nat by lia;
         replace (m - length row)%nat with 0%nat by lia.
    + rewrite decide_False by lia. unfold Array.store.
      rewrite decide_False by (rewrite length_app, length_replicate; lia).
      replace (S m - length row)%nat with (S (m - length row)) by lia.
      by rewrite replicate_S_end, app_assoc.
Qed.

(** ** [padTableToSize] *)

(** The first loop after [k] rounds: the rows below [k] exist and are
    filled, the others are as before; the rows created got the weight
    [null]; nothing else changed. *)
Lemma padTableRow_loop (nCols : nat) (t : Table) (k : nat) :
  let t' := Array.for_upto k (padTableRow nCols) t in
  length (rows t') = Nat.max (length (rows t)) k
  ∧ (∀ i, rows t' !! i
          = if decide (i < k)%nat
            then Some (padded nCols (default [] (rows t !! i)))
            else rows t !! i)
  ∧ (∀ i, Sparse.get (rowWeights t') i
          = if decide (length (rows t) ≤ i < k)%nat then Some None
            else Sparse.get (rowWeights t) i)
  ∧ t' = set_rowWeights (rowWeights t') (set_rows (rows t') t).
Proof.
  induction k as [|k IH].
  - change (Array.for_upto 0 (padTableRow nCols) t) with t. split; [|split; [|split]].
    + lia.
    + intros i. by rewrite decide_False by lia.
    + intros i. by rewrite decide_False by lia.
    + by destruct t.
  - rewrite for_upto_S. cbv zeta in IH.
    set (tk := Array.for_upto k (padTableRow nCols) t) in *.
    destruct IH as (Hlen & Hrows & Hw & Hrest). clearbody tk.
    unfold padTableRow.
    pose proof (Hrows k) as Hk. rewrite decide_False in Hk by lia.
    destruct (rows t !! k) as [row|] eqn:Hrow.
    + (* the row exists *)
      apply lookup_lt_Some in Hrow as Hlt.
      rewrite Hk. cbn [rows set_rows]. rewrite Hk.
      cbn [rows rowWeights set_rows]. rewrite padRow_padded.
      split; [|split; [|split]].
      * rewrite length_insert. lia.
      * intros i. destruct (decide (i = k)) as [->|Hne].
        -- rewrite list_lookup_insert_eq by lia.
           rewrite decide_True by lia. by rewrite Hrow.
        -- rewrite list_lookup_insert_ne by done. rewrite Hrows.
           destruct (decide (i < k)%nat); [by rewrite decide_True by lia|].
           by rewrite decide_False by lia.
      * intros i. rewrite Hw.
        destruct (decide (length (rows t) ≤ i < k)%nat);
          [by rewrite decide_True by lia|].
        by rewrite decide_False by lia.
      * destruct t, tk. by table_fields.
    + (* the row is created *)
      apply lookup_ge_None_1 in Hrow as Hge.
      rewrite Hk. cbn [rows rowWeights set_rows set_rowWeights].
      assert (Hstore : Array.store (rows tk) k [] = rows tk ++ [[]]).
      { unfold Array.store. by rewrite decide_False by lia. }
      assert (Hlenk : length (rows tk) = k) by lia.
      rewrite Hstore.
      rewrite (lookup_app_r (rows tk)) by lia.
      replace (k - length (rows tk))%nat with 0%nat by lia.
      cbn [lookup list_lookup]. cbn [rows rowWeights set_rows set_rowWeights].
      rewrite padRow_padded.
      assert (Hins : ∀ x : list Component,
                 <[k := x]> (rows tk ++ [[]]) = rows tk ++ [x]).
      { intros x. rewrite <- Hlenk at 1.
        rewrite <- (Nat.add_0_r (length (rows tk))). by rewrite insert_app_r. }
      rewrite !Hins.
      split; [|split; [|split]].
      * rewrite length_app. simpl. lia.
      * intros i. destruct (decide (i < k)%nat) as [Hi|Hi].
        -- rewrite lookup_app_l by lia. rewrite Hrows.
           by rewrite decide_True by lia; rewrite decide_True by lia.
        -- destruct (decide (i = k)) as [->|Hne].
           ++ rewrite lookup_app_r by lia.
              replace (k - length (rows tk))%nat with 0%nat by lia.
              rewrite decide_True by lia. by rewrite Hrow.
           ++ rewrite decide_False by lia.
              rewrite lookup_ge_None_2 by (rewrite length_app; simpl; lia).
              symmetry. apply lookup_ge_None_2. lia.
      * intros i. rewrite Sparse_get_store, Hw.
        destruct (decide (k = i)) as [->|Hne].
        -- by rewrite decide_True by lia.
        -- destruct (decide (length (rows t) ≤ i < k)%nat);
             [by rewrite decide_True by lia|].
           by rewrite decide_False by lia.
      * destruct t, tk. by table_fields.
Qed.

(** The second loop after [k] rounds: a column index below [k] without a
    weight cell got [null], the cells that existed are kept. *)
Lemma padColWeight_loop (t : Table) (k : nat) :
  let t' := Array.for_upto k padColWeight t in
  (∀ j, Sparse.get (colWeights t') j
        = if decide (j < k)%nat
          then Some (default None (Sparse.get (colWeights t) j))
          else Sparse.get (colWeights t) j)
  ∧ t' = set_colWeights (colWeights t') t.
Proof.
  induction k as [|k IH].
  - change (Array.for_upto 0 padColWeight t) with t. split.
    + intros j. by rewrite decide_False by lia.
    + by destruct t.
  - rewrite for_upto_S. cbv zeta in IH.
    set (tk := Array.for_upto k padColWeight t) in *.
    destruct IH as (Hw & Hrest). clearbody tk.
    unfold padColWeight.
    pose proof (Hw k) as Hk. rewrite decide_False in Hk by lia.
    destruct (Sparse.get (colWeights tk) k) as [w|] eqn:Hget.
    + split; [|done].
      intros j. rewrite Hw. destruct (decide (j = k)) as [->|Hne].
      * rewrite decide_False by lia. rewrite decide_True by lia.
        by rewrite <- Hk.
      * destruct (decide (j < k)%nat); [by rewrite decide_True by lia|].
        by rewrite decide_False by lia.
    + split.
      * intros j. cbn [colWeights set_colWeights].
        rewrite Sparse_get_store, Hw.
        destruct (decide (k = j)) as [<-|Hne].
        -- rewrite decide_True by lia. by rewrite <- Hk.
        -- destruct (decide (j < k)%nat); [by rewrite decide_True by lia|].
           by rewrite decide_False by lia.
      * destruct t, tk. by table_fields.
Qed.

(** What [padTableToSize] leaves: the rows below [nRows] exist and have at
    least [nCols] slots, the new slots holding placeholders; the other rows
    are untouched; a created row has the weight [null]; a column below
    [nCols] has a weight cell, the one it had or [null].  The other fields
    are unchanged. *)
Lemma padTableToSize_spec (nRows nCols : nat) (t : Table) :
  let t' := padTableToSize nRows nCols t in
  length (rows t') = Nat.max (length (rows t)) nRows
  ∧ (∀ i, rows t' !! i
          = if decide (i < nRows)%nat
            then Some (padded nCols (default [] (rows t !! i)))
            else rows t !! i)
  ∧ (∀ i, Sparse.get (rowWeights t') i
          = if decide (length (rows t) ≤ i < nRows)%nat then Some None
            else Sparse.get (rowWeights t) i)
  ∧ (∀ j, Sparse.get (colWeights t') j
          = if decide (j < nCols)%nat
            then Some (default None (Sparse.get (colWeights t) j))
            else Sparse.get (colWeights t) j)
  ∧ t' = set_colWeights (colWeights t')
           (set_rowWeights (rowWeights t') (set_rows (rows t') t)).
Proof.
  unfold padTableToSize.
  destruct (padTableRow_loop nCols t nRows) as (Hlen & Hrows & Hrw & Hrest1).
  set (t1 := Array.for_upto nRows (padTableRow nCols) t) in *. clearbody t1.
  destruct (padColWeight_loop t1 nCols) as (Hcw & Hrest2).
  set (t2 := Array.for_upto nCols padColWeight t1) in *. clearbody t2.
  cbv zeta.
  assert (rows t2 = rows t1) as Hr by (rewrite Hrest2; by destruct t1).
  assert (rowWeights t2 = rowWeights t1) as Hw by (rewrite Hrest2; by destruct t1).
  assert (colWeights t1 = colWeights t) as Hc by (rewrite Hrest1; by destruct t).
  rewrite Hr, Hw. rewrite Hc in Hcw.
  split_and!; try done.
  destruct t, t1, t2. by table_fields.
Qed.

(** In the round [k] of either padding loop the array has at least [k]
    elements: an assignment to an index that is [undefined] is made at the
    length of the array, where [Array.store] appends as JavaScript does. *)
Lemma padding_loops_stay_dense (nCols : nat) (t : Table) (row : list Component)
    (k : nat) :
  (k ≤ length (rows (Array.for_upto k (padTableRow nCols) t)))%nat
  ∧ (k ≤ length (padRow k row))%nat.
Proof.
  split.
  - destruct (padTableRow_loop nCols t k) as (Hlen & _). cbv zeta in Hlen. lia.
  - rewrite padRow_padded, padded_length. lia.
Qed.

(** ** [addComponent] *)

Lemma grown_cell (row col : nat) (t : Table) :
  rows (grown row col t) !! row
  = Some (padded (Nat.max col (nCols t) + 1) (default [] (rows t !! row)))
  ∧ cell (rows (grown row col t)) row col
    = Some (default newComponent (cell (rows t) row col)).
Proof.
  unfold grown.
  destruct (padTableToSize_spec (Nat.max row (nRows t) + 1)
              (Nat.max col (nCols t) + 1)
              (set_nCols (Nat.max col (nCols t))
                 (set_nRows (Nat.max row (nRows t)) t)))
    as (_ & Hrows & _).
  cbv zeta in Hrows. cbn [rows set_nCols set_nRows] in Hrows.
  assert (Hrow := Hrows row). rewrite decide_True in Hrow by lia.
  split; [done|].
  unfold cell. rewrite Hrow. clear Hrow Hrows.
  destruct (rows t !! row) as [r|]; simpl; rewrite padded_lookup.
  - destruct (decide (col < length r)%nat) as [Hc|Hc].
    + by destruct (lookup_lt_is_Some_2 r col Hc) as [x ->].
    + rewrite decide_True by lia. by rewrite lookup_ge_None_2 by lia.
  - rewrite decide_False by (simpl; lia). by rewrite decide_True by lia.
Qed.

(** The three ways [addComponent] ends.  The test of the target slot is
    made on the padded grid, where the slot always exists. *)
Lemma addComponent_spec (row col : nat) (component : Component) (t : Table) :
  addComponent row col component t
  = if decide (element t ≠ None) then (Throw InvalidMutation, t)
    else let t1 := grown row col t in
         if decide (cName (default newComponent (cell (rows t) row col)) ≠ "Component")
         then (Throw CellOccupied, t1)
         else (Return tt,
               set_rows (<[row := <[col := component]>
                                    (padded (Nat.max col (nCols t) + 1)
                                            (default [] (rows t !! row)))]>
                           (rows t1)) t1).
Proof.
  unfold addComponent, bind, get, modify, throw.
  destruct (decide (element t ≠ None)) as [He|He]; [done|].
  cbn [nRows nCols set_nCols set_nRows].
  change (padTableToSize _ _ _) with (grown row col t).
  destruct (grown_cell row col t) as (Hrow & Hcell).
  unfold cell in *. cbv zeta. rewrite Hcell.
  destruct (decide (cName (default newComponent
                             (rows t !! row ≫= λ r, r !! col))
                    ≠ "Component")) as [Hn|Hn]; [done|].
  rewrite Hrow. unfold Array.store.
  rewrite decide_True by (rewrite padded_length; lia). done.
Qed.

Lemma occupied_test (t : Table) (row col : nat) :
  occupied t row col
  ↔ cName (default newComponent (cell (rows t) row col)) ≠ "Component".
Proof.
  unfold occupied, isPlaceholder.
  destruct (cell (rows t) row col); simpl; [done|].
  split; [done|]. intros H. by apply H.
Qed.

(** The fields of [grown row col t]. *)
Lemma grown_spec (row col : nat) (t : Table) :
  let n := (Nat.max row (nRows t) + 1)%nat in
  let m := (Nat.max col (nCols t) + 1)%nat in
  let g := grown row col t in
  length (rows g) = Nat.max (length (rows t)) n
  ∧ (∀ i, rows g !! i
          = if decide (i < n)%nat
            then Some (padded m (default [] (rows t !! i)))
            else rows t !! i)
  ∧ (∀ i, Sparse.get (rowWeights g) i
          = if decide (length (rows t) ≤ i < n)%nat then Some None
            else Sparse.get (rowWeights t) i)
  ∧ (∀ j, Sparse.get (colWeights g) j
          = if decide (j < m)%nat
            then Some (default None (Sparse.get (colWeights t) j))
            else Sparse.get (colWeights t) j)
  ∧ nRows g = Nat.max row (nRows t)
  ∧ nCols g = Nat.max col (nCols t)
  ∧ element g = element t
  ∧ rowPadding g = rowPadding t ∧ colPadding g = colPadding t
  ∧ rowMinimums g = rowMinimums t ∧ colMinimums g = colMinimums t.
Proof.
  intros n m g. subst g. unfold grown. fold n m.
  destruct (padTableToSize_spec n m
              (set_nCols (Nat.max col (nCols t))
                 (set_nRows (Nat.max row (nRows t)) t)))
    as (Hlen & Hrows & Hrw & Hcw & Hrest).
  cbv zeta in *.
  set (g := padTableToSize n m _) in *. clearbody g.
  cbn [rows rowWeights colWeights set_nCols set_nRows] in *.
  split_and!; try done; rewrite Hrest; by destruct t.
Qed.

(** The state [addComponent] leaves when the table is not anchored: the
    grown table, with the component written in its slot unless the slot was
    occupied. *)
Lemma addComponent_state (row col : nat) (component : Component) (t : Table) :
  element t = None →
  let g := grown row col t in
  let t' := (addComponent row col component t).2 in
  (∀ i, rows t' !! i
        = if decide (i = row ∧ ¬ occupied t row col)
          then Some (<[col := component]>
                       (padded (Nat.max col (nCols t) + 1)
                               (default [] (rows t !! row))))
          else rows g !! i)
  ∧ length (rows t') = length (rows g)
  ∧ rowWeights t' = rowWeights g ∧ colWeights t' = colWeights g
  ∧ nRows t' = nRows g ∧ nCols t' = nCols g ∧ element t' = element g
  ∧ rowPadding t' = rowPadding g ∧ colPadding t' = colPadding g
  ∧ rowMinimums t' = rowMinimums g ∧ colMinimums t' = colMinimums g.
Proof.
  intros He g t'. subst t'. rewrite addComponent_spec.
  rewrite decide_False by (by intros H; apply H). cbv zeta. fold g.
  destruct (decide (cName (default newComponent (cell (rows t) row col))
                    ≠ "Component")) as [Hocc|Hfree].
  - apply occupied_test in Hocc. cbn [snd].
    split_and!; try done.
    intros i. by rewrite decide_False by tauto.
  - rewrite <- occupied_test in Hfree. cbn [snd rows set_rows].
    split_and!; try done.
    + intros i. destruct (decide (i = row)) as [->|Hne].
      * rewrite decide_True by done.
        apply list_lookup_insert_eq.
        destruct (grown_cell row col t) as (Hrow & _).
        by apply lookup_lt_Some in Hrow.
      * rewrite decide_False by tauto. by apply list_lookup_insert_ne.
    + apply length_insert.
Qed.

(** On a table whose counters bound the grid the padding reaches every row,
    which leaves a grid of exactly [max(row, nRows) + 1] rows of
    [max(col, nCols) + 1] slots. *)
Lemma grown_rectangular (row col : nat) (t : Table) :
  counters_cover t →
  length (rows (grown row col t)) = (Nat.max row (nRows t) + 1)%nat
  ∧ rectangular (Nat.max col (nCols t) + 1) (rows (grown row col t)).
Proof.
  intros (Hn & Hm).
  destruct (grown_spec row col t) as (Hlen & Hrows & _). cbv zeta in *.
  assert (Hlen' : length (rows (grown row col t))
                  = (Nat.max row (nRows t) + 1)%nat) by lia.
  split; [done|].
  apply Forall_lookup. intros i r Hi.
  apply lookup_lt_Some in Hi as Hlt.
  rewrite Hrows, decide_True in Hi by lia. injection Hi as <-.
  rewrite padded_length.
  destruct (rows t !! i) as [r0|] eqn:Hr0; simpl; [|lia].
  rewrite Forall_lookup in Hm. specialize (Hm i r0 Hr0). simpl in Hm. lia.
Qed.

(** The grid [addComponent] leaves, whether it returns or finds the slot
    occupied. *)
Lemma addComponent_rectangular (row col : nat) (component : Component) (t : Table) :
  counters_cover t → element t = None →
  let t' := (addComponent row col component t).2 in
  length (rows t') = (Nat.max row (nRows t) + 1)%nat
  ∧ rectangular (Nat.max col (nCols t) + 1) (rows t')
  ∧ nRows t' = Nat.max row (nRows t) ∧ nCols t' = Nat.max col (nCols t).
Proof.
  intros Hcov He t'.
  destruct (addComponent_state row col component t He)
    as (Hrows & Hlen & _ & _ & HnR & HnC & _).
  destruct (grown_spec row col t) as (_ & _ & _ & _ & HgR & HgC & _).
  destruct (grown_rectangular row col t Hcov) as (Hglen & Hgrect).
  cbv zeta in *. fold t' in Hrows, Hlen, HnR, HnC.
  split_and!; try congruence.
  apply Forall_lookup. intros i r Hi. rewrite Hrows in Hi.
  destruct (decide (i = row ∧ ¬ occupied t row col)) as [[-> _]|_].
  - injection Hi as <-. rewrite length_insert, padded_length.
    destruct Hcov as (_ & Hm).
    destruct (rows t !! row) as [r0|] eqn:Hr0; simpl; [|lia].
    rewrite Forall_lookup in Hm. specialize (Hm row r0 Hr0). simpl in Hm. lia.
  - unfold rectangular in Hgrect. rewrite Forall_lookup in Hgrect.
    by apply (Hgrect i r).
Qed.

(** [addComponent] keeps the counters bounding the grid. *)
Lemma addComponent_counters_cover (row col : nat) (component : Component) (t : Table) :
  counters_cover t → counters_cover (addComponent row col component t).2.
Proof.
  intros Hcov. destruct (element t) as [e|] eqn:He.
  - rewrite addComponent_spec, decide_True by (by rewrite He). done.
  - destruct (addComponent_rectangular row col component t Hcov He)
      as (Hlen & Hrect & HnR & HnC). cbv zeta in *.
    split; [lia|].
    eapply Forall_impl; [exact Hrect|]. simpl. intros r Hr. lia.
Qed.

(** ** [d3.max] returns a maximum *)

Section d3_max.
Context {A B : Type} (gt : B → B → bool) (le : B → B → Prop).
Hypothesis le_refl : ∀ x, le x x.
Hypothesis le_trans : ∀ x y z, le x y → le y z → le x z.
Hypothesis gt_true : ∀ a b, gt b a = true → le a b.
Hypothesis gt_false : ∀ a b, gt b a = false → le b a.

Lemma foldl_max_spec (a : B) (rest : list B) :
  let m := foldl (λ a b, if gt b a then b else a) a rest in
  m ∈ a :: rest ∧ ∀ v, v ∈ a :: rest → le v m.
Proof.
  revert a. induction rest as [|b rest IH]; intros a; simpl.
  - split; [apply list_elem_of_here|].
    intros v Hv. apply list_elem_of_singleton in Hv as ->. apply le_refl.
  - destruct (IH (if gt b a then b else a)) as (Hin & Hmax).
    split.
    + apply elem_of_cons in Hin as [Heq|Hin].
      * rewrite Heq. destruct (gt b a); [|apply list_elem_of_here].
        apply list_elem_of_further, list_elem_of_here.
      * by do 2 apply list_elem_of_further.
    + intros v Hv.
      assert (le (if gt b a then b else a)
                 (foldl (λ a b, if gt b a then b else a)
                    (if gt b a then b else a) rest)) as Hcur
        by apply Hmax, list_elem_of_here.
      apply elem_of_cons in Hv as [->|Hv];
        [|apply elem_of_cons in Hv as [->|Hv]].
      * eapply le_trans; [|exact Hcur].
        destruct (gt b a) eqn:Hgt; [by apply gt_true|apply le_refl].
      * eapply le_trans; [|exact Hcur].
        destruct (gt b a) eqn:Hgt; [apply le_refl|by apply gt_false].
      * by apply Hmax, list_elem_of_further.
Qed.

(** [d3.max] is [undefined] exactly on the empty array, and otherwise one
    of the values, above all of them. *)
Lemma d3_max_spec (array : list A) (f : A → B) :
  match d3.max gt array f with
  | None => array = []
  | Some m => m ∈ f <$> array ∧ ∀ v, v ∈ f <$> array → le v m
  end.
Proof.
  unfold d3.max. destruct array as [|x array]; [done|].
  cbn [fmap list_fmap]. apply foldl_max_spec.
Qed.

End d3_max.

Lemma d3_max_nat_spec {A} (array : list A) (f : A → nat) :
  match d3.max (λ b a, bool_decide (a < b)%nat) array f with
  | None => array = []
  | Some m => m ∈ f <$> array ∧ ∀ v, v ∈ f <$> array → (v ≤ m)%nat
  end.
Proof.
  apply (d3_max_spec _ (λ a b : nat, (a ≤ b)%nat)).
  - lia.
  - lia.
  - intros a b H. apply bool_decide_eq_true in H. lia.
  - intros a b H. apply bool_decide_eq_false in H. lia.
Qed.

Lemma d3_max_number_spec {A} (array : list A) (f : A → number) :
  match d3.max gtb array f with
  | None => array = []
  | Some m => m ∈ f <$> array ∧ ∀ v, v ∈ f <$> array → v ≤ m
  end.
Proof.
  apply (d3_max_spec _ Qcle).
  - intros x. apply Qcle_refl.
  - intros x y z. apply Qcle_trans.
  - intros a b H. apply bool_decide_eq_true in H. by apply Qclt_le_weak.
  - intros a b H. apply bool_decide_eq_false in H. by apply Qcnot_lt_le.
Qed.

(** ** The constructor *)

Lemma constructor_rows (input : list (list (option Component))) :
  rows (constructor input)
  = (λ row : list (option Component), default newComponent <$> row) <$> input.
Proof.
  unfold constructor. cbn [rows].
  apply list_fmap_ext. intros _ row _.
  apply list_fmap_ext. intros _ c _. by destruct c.
Qed.

Lemma constructor_nCols (input : list (list (option Component))) :
  (∀ row, row ∈ input → (length row ≤ nCols (constructor input))%nat)
  ∧ (input ≠ [] → ∃ row, row ∈ input ∧ length row = nCols (constructor input)).
Proof.
  unfold constructor. cbn [nCols].
  set (rs := (λ row : list (option Component), _ <$> row) <$> input).
  assert (Hlens : length <$> rs = length <$> input).
  { subst rs. rewrite <- list_fmap_compose. apply list_fmap_ext.
    intros _ row _. simpl. apply length_fmap. }
  pose proof (d3_max_nat_spec rs length) as Hmax.
  destruct input as [|row0 input].
  - split; [|done]. intros row Hrow. by apply elem_of_nil in Hrow.
  - rewrite decide_True by (subst rs; simpl; lia).
    destruct (d3.max _ rs length) as [m|]; [|done].
    rewrite Hlens in Hmax. destruct Hmax as (Hin & Hle). simpl.
    split.
    + intros row Hrow. apply Hle. by apply list_elem_of_fmap_2.
    + intros _. apply list_elem_of_fmap in Hin as (row & -> & Hrow). eauto.
Qed.

(** The table the constructor returns has counters that bound its grid. *)
Lemma constructor_counters_cover (input : list (list (option Component))) :
  counters_cover (constructor input).
Proof.
  split.
  - unfold constructor. cbn [rows nRows]. lia.
  - rewrite constructor_rows. apply Forall_fmap, Forall_forall.
    intros row Hrow.
    pose proof (proj1 (constructor_nCols input) row Hrow) as Hle.
    unfold compose. rewrite length_fmap. lia.
Qed.

(** A jagged argument stays jagged: the constructor does not pad. *)
Lemma constructor_keeps_jagged_rows :
  let a := mkComponent "Label" (num 10) (num 20) false false in
  let t := constructor [[Some a; None]; [Some a]] in
  rows t = [[a; newComponent]; [a]]
  ∧ nCols t = 2%nat
  ∧ ¬ rectangular (nCols t) (rows t)
  ∧ ¬ ∃ n, rectangular n (rows t).
Proof.
  cbv zeta. split_and!; [reflexivity..| |].
  - vm_compute. intros H. apply Forall_cons in H as (_ & H).
    apply Forall_cons in H as (H & _). discriminate H.
  - intros (n & H). vm_compute in H. apply Forall_cons in H as (H1 & H).
    apply Forall_cons in H as (H2 & _). congruence.
Qed.

(** C7 (amended).  The constructor replaces every [null] entry of its
    argument by a placeholder and keeps every other entry and the length of
    every row: it does not pad.  The counter [nRows] is the number of rows
    and [nCols] the maximal length of a row of the argument, so right after
    construction every row has [nCols] slots exactly when all the rows of
    the argument have the same length. *)
Theorem constructor_normalises (input : list (list (option Component))) :
  let t := constructor input in
  length (rows t) = length input
  ∧ (∀ i row, input !! i = Some row →
       ∃ r, rows t !! i = Some r ∧ length r = length row
            ∧ ∀ j, r !! j = default newComponent <$> row !! j)
  ∧ nRows t = length input
  ∧ (∀ row, row ∈ input → (length row ≤ nCols t)%nat)
  ∧ (input ≠ [] → ∃ row, row ∈ input ∧ length row = nCols t)
  ∧ (rectangular (nCols t) (rows t)
     ↔ ∀ row, row ∈ input → length row = nCols t).
Proof.
  intros t. subst t.
  destruct (constructor_nCols input) as (Hle & Hex).
  split_and!; try done.
  - by rewrite constructor_rows, length_fmap.
  - intros i row Hi. rewrite constructor_rows, list_lookup_fmap, Hi.
    eexists. split; [reflexivity|]. split; [apply length_fmap|].
    intros j. apply list_lookup_fmap.
  - unfold constructor. cbn [rows nRows]. by rewrite length_fmap.
  - unfold rectangular. rewrite constructor_rows, Forall_fmap, Forall_forall.
    split; intros H row Hrow; specialize (H row Hrow); unfold compose in *.
    + by rewrite length_fmap in H.
    + by rewrite length_fmap.
Qed.

(** ** The cells after [addComponent] *)

(** Every slot but the target: a slot within the padded area holds what it
    held, or a placeholder if it did not exist; the others are untouched. *)
Lemma addComponent_cell (row col : nat) (component : Component) (t : Table)
    (r c : nat) :
  element t = None → (r, c) ≠ (row, col) →
  cell (rows (addComponent row col component t).2) r c
  = if decide (r < Nat.max row (nRows t) + 1 ∧ c < Nat.max col (nCols t) + 1)%nat
    then Some (default newComponent (cell (rows t) r c))
    else cell (rows t) r c.
Proof.
  intros He Hne.
  destruct (addComponent_state row col component t He) as (Hrows & _).
  destruct (grown_spec row col t) as (_ & Hg & _). cbv zeta in *.
  unfold cell at 1. rewrite Hrows. clear Hrows.
  assert (Hpad : ∀ r0 : list Component,
             padded (Nat.max col (nCols t) + 1) r0 !! c
             = if decide (c < Nat.max col (nCols t) + 1)%nat
               then Some (default newComponent (r0 !! c)) else r0 !! c).
  { intros r0. rewrite padded_lookup.
    destruct (decide (c < length r0)%nat) as [Hc|Hc].
    - destruct (lookup_lt_is_Some_2 r0 c Hc) as [x ->].
      by destruct (decide (c < _)%nat).
    - rewrite (lookup_ge_None_2 r0 c) by lia.
      by destruct (decide (c < _)%nat). }
  assert (Hrow : (rows (grown row col t) !! r ≫= λ r0, r0 !! c)
                 = if decide (r < Nat.max row (nRows t) + 1
                              ∧ c < Nat.max col (nCols t) + 1)%nat
                   then Some (default newComponent (cell (rows t) r c))
                   else cell (rows t) r c).
  { rewrite Hg. unfold cell.
    destruct (decide (r < Nat.max row (nRows t) + 1)%nat) as [Hr|Hr].
    - cbn [mbind option_bind]. rewrite Hpad.
      destruct (decide (c < Nat.max col (nCols t) + 1)%nat) as [Hc|Hc].
      + rewrite decide_True by done. by destruct (rows t !! r).
      + rewrite decide_False by tauto. by destruct (rows t !! r).
    - by rewrite decide_False by tauto. }
  destruct (decide (r = row ∧ ¬ occupied t row col)) as [[-> Hfree]|_];
    [|done].
  cbn [mbind option_bind].
  rewrite list_lookup_insert_ne by congruence.
  rewrite <- Hrow, Hg. by rewrite decide_True by lia.
Qed.

(** The target slot holds the component, unless it was occupied. *)
Lemma addComponent_target (row col : nat) (component : Component) (t : Table) :
  element t = None →
  cell (rows (addComponent row col component t).2) row col
  = Some (if decide (occupied t row col)
          then default newComponent (cell (rows t) row col)
          else component).
Proof.
  intros He.
  destruct (addComponent_state row col component t He) as (Hrows & _).
  destruct (grown_cell row col t) as (Hrow & Hcell). cbv zeta in *.
  unfold cell at 1. rewrite Hrows.
  destruct (decide (occupied t row col)) as [Hocc|Hfree].
  - by rewrite decide_False by tauto.
  - rewrite decide_True by done. cbn [mbind option_bind].
    apply list_lookup_insert_eq. rewrite padded_length. lia.
Qed.

(** ** The grid after [addComponent] *)

(** C6.  A row or column that [addComponent] creates gets an unset
    weight: the loop of [padTableToSize] over the rows assigns [null] to
    the weight of every row it creates.  The loop over the columns assigns
    it only where the array of column weights has no cell, so a weight
    stored ahead of its column survives the creation of the column: after
    [new Table([[a]]).colWeight(1, 2).addComponent(0, 1, b)] the new column
    1 has the weight 2, not [null]. *)
Lemma addComponent_new_column_keeps_stored_weight :
  let a := mkComponent "Label" (num 10) (num 20) false false in
  let b := mkComponent "Plot" (num 30) (num 40) false false in
  let t0 := constructor [[Some a]] in
  let t1 := (colWeight 1 (num 2) t0).2 in
  let r := addComponent 0 1 b t1 in
  counters_cover t1 ∧ element t1 = None
  ∧ rows t1 = [[a]]
  ∧ r.1 = Return tt
  ∧ rows r.2 = [[a; b]; [newComponent; newComponent]]
  ∧ Sparse.get (colWeights r.2) 1 = Some (Some (num 2))
  ∧ Sparse.get (colWeights r.2) 1 ≠ Some None.
Proof. cbv zeta. split_and!; [compute_done|reflexivity..|done]. Qed.

(** The sibling loop: a row weight stored ahead of its row is reset to
    [null] when [addComponent] creates the row. *)
Lemma addComponent_new_row_resets_stored_weight :
  let a := mkComponent "Label" (num 10) (num 20) false false in
  let b := mkComponent "Plot" (num 30) (num 40) false false in
  let t0 := constructor [[Some a]] in
  let t1 := (rowWeight 2 (num 2) t0).2 in
  let r := addComponent 2 0 b t1 in
  rows t1 = [[a]]
  ∧ Sparse.get (rowWeights t1) 2 = Some (Some (num 2))
  ∧ r.1 = Return tt
  ∧ rows r.2 = [[a; newComponent]; [newComponent; newComponent];
                [b; newComponent]]
  ∧ Sparse.get (rowWeights r.2) 2 = Some None.
Proof. cbv zeta. split_and!; reflexivity. Qed.

(** X17.  After a call of [addComponent(row, col, component)] that
    passes the test of anchoring, whether it returns or fails with
    CellOccupied: every row has the same length; the grid has at least
    [row + 1] rows and [col + 1] columns and is not smaller than before;
    every slot created, the target apart, holds a placeholder and every
    other slot but the target holds what it held; every row created has an
    unset weight; every column has a weight cell, unset unless a weight had
    been stored at its index before. *)
Theorem addComponent_grid (row col : nat) (component : Component) (t : Table) :
  counters_cover t → element t = None →
  let t' := (addComponent row col component t).2 in
  let n := length (rows t') in
  let m := (nCols t' + 1)%nat in
  rectangular m (rows t')
  ∧ (row + 1 ≤ n)%nat ∧ (length (rows t) ≤ n)%nat
  ∧ (col + 1 ≤ m)%nat ∧ Forall (λ r, (length r ≤ m)%nat) (rows t)
  ∧ (∀ r c, (r < n)%nat → (c < m)%nat → (r, c) ≠ (row, col) →
       cell (rows t) r c = None → cell (rows t') r c = Some newComponent)
  ∧ (∀ r c x, (r, c) ≠ (row, col) →
       cell (rows t) r c = Some x → cell (rows t') r c = Some x)
  ∧ (∀ r, (length (rows t) ≤ r < n)%nat →
       Sparse.get (rowWeights t') r = Some None)
  ∧ (∀ c, (c < m)%nat →
       Sparse.get (colWeights t') c
       = Some (default None (Sparse.get (colWeights t) c))).
Proof.
  intros Hcov He t' n m.
  destruct (addComponent_rectangular row col component t Hcov He)
    as (Hlen & Hrect & HnR & HnC).
  destruct (addComponent_state row col component t He)
    as (_ & _ & Hrw & Hcw & _).
  destruct (grown_spec row col t) as (_ & _ & Hgrw & Hgcw & _).
  cbv zeta in *. fold t' in Hlen, Hrect, HnR, HnC, Hrw, Hcw.
  assert (Hn : n = (Nat.max row (nRows t) + 1)%nat) by (subst n; lia).
  assert (Hm : m = (Nat.max col (nCols t) + 1)%nat) by (subst m; lia).
  destruct Hcov as (HcR & HcC).
  split_and!.
  - by rewrite Hm.
  - lia.
  - lia.
  - lia.
  - eapply Forall_impl; [exact HcC|]. simpl. intros r Hr. lia.
  - intros r c Hr Hc Hne Hnone. subst t'.
    rewrite addComponent_cell by done.
    rewrite decide_True by lia. by rewrite Hnone.
  - intros r c x Hne Hx. subst t'. rewrite addComponent_cell by done.
    rewrite Hx. by destruct (decide _).
  - intros r Hr. rewrite Hrw, Hgrw. by rewrite decide_True by lia.
  - intros c Hc. rewrite Hcw, Hgcw. by rewrite decide_True by lia.
Qed.

(** X17 on a table of one row, extended by a cell that is two rows below
    and one column to the right. *)
Lemma addComponent_grid_witness :
  let a := mkComponent "Label" (num 10) (num 20) false false in
  let t := constructor [[Some a; None]] in
  let t' := (addComponent 2 3 a t).2 in
  rectangular (nCols t' + 1) (rows t')
  ∧ Sparse.get (rowWeights t') 2 = Some None.
Proof.
  cbv zeta.
  pose proof (addComponent_grid 2 3
                (mkComponent "Label" (num 10) (num 20) false false)
                (constructor
                   [[Some (mkComponent "Label" (num 10) (num 20) false false);
                     None]])) as H.
  cbv zeta in H.
  destruct H as (Hrect & _ & _ & _ & _ & _ & _ & Hw & _);
    [compute_done | reflexivity |].
  split; [exact Hrect|]. apply Hw. vm_compute. lia.
Defined.

(** ** The outcomes of [addComponent] *)

(** C8.  [addComponent(row, col, component)] on an anchored table fails with
    InvalidMutation before anything else, whatever the cell, and leaves the
    table as it was.  On a table that is not anchored it fails with
    CellOccupied when the slot holds a component that is not a placeholder;
    otherwise it writes the component into the slot and returns.  A cell
    populated this way cannot be populated again: the second call fails with
    CellOccupied. *)
Theorem addComponent_outcomes (row col : nat) (component : Component) (t : Table) :
  (element t ≠ None →
     addComponent row col component t = (Throw InvalidMutation, t))
  ∧ (element t = None → occupied t row col →
       (addComponent row col component t).1 = Throw CellOccupied)
  ∧ (element t = None → ¬ occupied t row col →
       (addComponent row col component t).1 = Return tt
       ∧ cell (rows (addComponent row col component t).2) row col
         = Some component)
  ∧ (element t = None → ¬ occupied t row col → ¬ isPlaceholder component →
       ∀ other, (addComponent row col other
                   (addComponent row col component t).2).1
                = Throw CellOccupied).
Proof.
  assert (Hocc : element t = None → occupied t row col →
            (addComponent row col component t).1 = Throw CellOccupied).
  { intros He Hocc. rewrite addComponent_spec.
    rewrite decide_False by (by intros H; apply H). cbv zeta.
    apply occupied_test in Hocc. by rewrite decide_True by done. }
  assert (Hfree : element t = None → ¬ occupied t row col →
            (addComponent row col component t).1 = Return tt
            ∧ cell (rows (addComponent row col component t).2) row col
              = Some component).
  { intros He Hfree. split.
    - rewrite addComponent_spec.
      rewrite decide_False by (by intros H; apply H). cbv zeta.
      rewrite occupied_test in Hfree. by rewrite decide_False by done.
    - rewrite addComponent_target by done. by rewrite decide_False by done. }
  split_and!; try done.
  - intros He. rewrite addComponent_spec. by rewrite decide_True by done.
  - intros He Hnocc Hreal other.
    destruct (Hfree He Hnocc) as (_ & Hcell).
    destruct (addComponent_state row col component t He)
      as (_ & _ & _ & _ & _ & _ & Hel & _).
    destruct (grown_spec row col t) as (_ & _ & _ & _ & _ & _ & Hgel & _).
    cbv zeta in *.
    set (t' := (addComponent row col component t).2) in *.
    assert (He' : element t' = None) by congruence.
    rewrite addComponent_spec.
    rewrite decide_False by (by intros H; apply H). cbv zeta.
    rewrite decide_True; [done|].
    apply occupied_test. unfold occupied. by rewrite Hcell.
Qed.

(** ** How far [addComponent] pads *)

(** A first call at a cell outside the initial grid pads to what the cell
    needs and no further. *)
Lemma addComponent_outside_adds_no_extra :
  let a := mkComponent "Label" (num 10) (num 20) false false in
  let b := mkComponent "Plot" (num 30) (num 40) false false in
  let t := constructor [[Some a]] in
  let r := addComponent 1 1 b t in
  rows t ≠ []
  ∧ r.1 = Return tt
  ∧ rows r.2 = [[a; newComponent]; [newComponent; b]]
  ∧ length (rows r.2) = Nat.max (1 + 1) (length (rows t))
  ∧ rectangular (Nat.max (1 + 1) (nCols t)) (rows r.2).
Proof.
  cbv zeta. split_and!; [done|reflexivity..|].
  vm_compute. by repeat constructor.
Qed.

(** C10 (amended).  After a call of [addComponent(row, col, component)] that
    passes the test of anchoring, whether it returns or fails with
    CellOccupied, the grid has exactly [max(row, nRows) + 1] rows of
    [max(col, nCols) + 1] slots, for the counters before the call.  On a
    table fresh from the constructor the counters are the number of rows
    and the maximal row length of the argument, so the first such call
    leaves one row more than the cell needs when [row] is below the number
    of initial rows, and exactly the rows needed otherwise; likewise for the
    columns and the maximal initial row length. *)
Theorem addComponent_padding_size :
  (∀ row col component t,
     counters_cover t → element t = None →
     let t' := (addComponent row col component t).2 in
     length (rows t') = (Nat.max row (nRows t) + 1)%nat
     ∧ rectangular (Nat.max col (nCols t) + 1) (rows t'))
  ∧ (∀ input row col component,
       let t := constructor input in
       let t' := (addComponent row col component t).2 in
       let nRows0 := length input in
       let nCols0 := nCols t in
       let neededRows := Nat.max (row + 1) nRows0 in
       let neededCols := Nat.max (col + 1) nCols0 in
       (∀ r, r ∈ input → (length r ≤ nCols0)%nat)
       ∧ (input ≠ [] → ∃ r, r ∈ input ∧ length r = nCols0)
       ∧ ((row < nRows0)%nat → length (rows t') = (neededRows + 1)%nat)
       ∧ ((nRows0 ≤ row)%nat → length (rows t') = neededRows)
       ∧ ((col < nCols0)%nat → rectangular (neededCols + 1) (rows t'))
       ∧ ((nCols0 ≤ col)%nat → rectangular neededCols (rows t'))).
Proof.
  split.
  - intros row col component t Hcov He t'.
    destruct (addComponent_rectangular row col component t Hcov He)
      as (Hlen & Hrect & _). done.
  - intros input row col component t t' nRows0 nCols0 neededRows neededCols.
    destruct (addComponent_rectangular row col component t
                (constructor_counters_cover input) eq_refl)
      as (Hlen & Hrect & _). cbv zeta in *. fold t' in Hlen, Hrect.
    destruct (constructor_nCols input) as (Hle & Hex).
    assert (HnR : nRows t = nRows0).
    { subst t nRows0. unfold constructor. cbn [nRows]. by rewrite length_fmap. }
    fold t in Hle, Hex. fold nCols0 in Hle, Hex, Hrect. rewrite HnR in Hlen.
    split_and!; try done.
    + intros H. subst neededRows. lia.
    + intros H. subst neededRows. lia.
    + intros H. subst neededCols.
      by replace (Nat.max (col + 1) nCols0 + 1)%nat
        with (Nat.max col nCols0 + 1)%nat by lia.
    + intros H. subst neededCols.
      by replace (Nat.max (col + 1) nCols0)
        with (Nat.max col nCols0 + 1)%nat by lia.
Qed.

(** The amended claim C10 on a table of two rows: a first call at a cell of
    the initial grid leaves three rows of three slots. *)
Lemma addComponent_padding_size_witness :
  let a := mkComponent "Label" (num 10) (num 20) false false in
  let t := constructor [[Some a; None]; [None; None]] in
  let t' := (addComponent 1 0 a t).2 in
  length (rows t') = 3%nat ∧ rectangular 3 (rows t').
Proof.
  cbv zeta.
  set (a := mkComponent "Label" (num 10) (num 20) false false).
  destruct addComponent_padding_size as (H & _).
  apply (H 1%nat 0%nat a (constructor [[Some a; None]; [None; None]])).
  - compute_done.
  - reflexivity.
Defined.

(** Claim C8 on a table with one label: a second component is refused in
    the cell of the label, accepted in the next one, and refused there
    afterwards; nothing is accepted once the table is anchored. *)
Lemma addComponent_outcomes_witness :
  let a := mkComponent "Label" (num 10) (num 20) false false in
  let b := mkComponent "Plot" (num 30) (num 40) false false in
  let t := constructor [[Some a]] in
  (addComponent 0 0 b t).1 = Throw CellOccupied
  ∧ (addComponent 0 1 b t).1 = Return tt
  ∧ (addComponent 0 1 a (addComponent 0 1 b t).2).1 = Throw CellOccupied
  ∧ addComponent 0 1 b (anchor (selection 0) t).2
    = (Throw InvalidMutation, (anchor (selection 0) t).2).
Proof.
  cbv zeta.
  set (a := mkComponent "Label" (num 10) (num 20) false false).
  set (b := mkComponent "Plot" (num 30) (num 40) false false).
  set (t := constructor [[Some a]]).
  destruct (addComponent_outcomes 0 0 b t) as (_ & Hocc & _).
  destruct (addComponent_outcomes 0 1 b t) as (_ & _ & Hfree & Honce).
  destruct (addComponent_outcomes 0 1 b (anchor (selection 0) t).2)
    as (Hanch & _).
  split_and!.
  - apply Hocc; [reflexivity | compute_done].
  - apply Hfree; [reflexivity | compute_done].
  - apply Honce; [reflexivity | compute_done | compute_done].
  - apply Hanch. done.
Defined.

(** ** [d3.transpose] *)

Lemma foldl_min_spec (a : nat) (rest : list nat) :
  foldl Nat.min a rest ∈ a :: rest
  ∧ ∀ v, v ∈ a :: rest → (foldl Nat.min a rest ≤ v)%nat.
Proof.
  revert a. induction rest as [|b rest IH]; intros a; simpl.
  - split; [apply list_elem_of_here|].
    intros v Hv. apply list_elem_of_singleton in Hv as ->. lia.
  - destruct (IH (Nat.min a b)) as (Hin & Hmin). split.
    + apply elem_of_cons in Hin as [Heq|Hin].
      * rewrite Heq. destruct (Nat.min_spec a b) as [[_ ->]|[_ ->]].
        -- apply list_elem_of_here.
        -- apply list_elem_of_further, list_elem_of_here.
      * by do 2 apply list_elem_of_further.
    + intros v Hv.
      pose proof (Hmin (Nat.min a b) (list_elem_of_here _ _)) as Hcur.
      apply elem_of_cons in Hv as [->|Hv];
        [|apply elem_of_cons in Hv as [->|Hv]]; [lia|lia|].
      by apply Hmin, list_elem_of_further.
Qed.

(** The number of columns of the transposed matrix is the length of the
    shortest row. *)
Lemma min_length_spec {A} (matrix : list (list A)) :
  (∀ row, row ∈ matrix → (d3.min_length matrix ≤ length row)%nat)
  ∧ (matrix ≠ [] → ∃ row, row ∈ matrix ∧ length row = d3.min_length matrix).
Proof.
  unfold d3.min_length. destruct matrix as [|row0 matrix].
  - split; [|done]. intros row Hrow. by apply elem_of_nil in Hrow.
  - cbn [fmap list_fmap].
    destruct (foldl_min_spec (length row0) (length <$> matrix)) as (Hin & Hle).
    split.
    + intros row Hrow. apply Hle.
      by apply (list_elem_of_fmap_2 length (row0 :: matrix)).
    + intros _.
      apply (list_elem_of_fmap length (row0 :: matrix)) in Hin
        as (row & -> & Hrow). eauto.
Qed.

Lemma transpose_length {A} (matrix : list (list A)) :
  length (d3.transpose matrix) = d3.min_length matrix.
Proof. unfold d3.transpose. by rewrite length_fmap, length_seq. Qed.

Lemma transpose_nil {A} : d3.transpose (@nil (list A)) = [].
Proof. reflexivity. Qed.

Lemma omap_column {A} (matrix : list (list A)) (j : nat) :
  Forall (λ row, (j < length row)%nat) matrix →
  length (omap (λ row : list A, row !! j) matrix) = length matrix
  ∧ ∀ i, omap (λ row : list A, row !! j) matrix !! i
         = matrix !! i ≫= λ row, row !! j.
Proof.
  induction 1 as [|row matrix Hrow Hrest (IHlen & IHlookup)]; [done|].
  destruct (lookup_lt_is_Some_2 row j Hrow) as [x Hx].
  cbn [omap list_omap]. rewrite Hx. split.
  - simpl. by rewrite IHlen.
  - intros [|i]; simpl; [by rewrite Hx|apply IHlookup].
Qed.

(** Column [j] of the transposed matrix holds the element [j] of every
    row, in the order of the rows. *)
Lemma transpose_lookup {A} (matrix : list (list A)) (j : nat) (col : list A) :
  d3.transpose matrix !! j = Some col →
  length col = length matrix
  ∧ ∀ i, col !! i = matrix !! i ≫= λ row, row !! j.
Proof.
  unfold d3.transpose. rewrite list_lookup_fmap.
  intros Hcol. destruct (seq 0 (d3.min_length matrix) !! j) as [j'|] eqn:Hj;
    [|done].
  apply lookup_seq in Hj as (-> & Hlt). simpl in Hcol. injection Hcol as <-.
  apply omap_column, Forall_forall. intros row Hrow.
  pose proof (proj1 (min_length_spec matrix) row Hrow). lia.
Qed.

(** A column of the transposed matrix is never empty. *)
Lemma transpose_columns_nonempty {A} (matrix : list (list A)) :
  Forall (λ col, col ≠ []) (d3.transpose matrix).
Proof.
  apply Forall_lookup. intros j col Hcol.
  destruct (transpose_lookup matrix j col Hcol) as (Hlen & _).
  apply lookup_lt_Some in Hcol. rewrite transpose_length in Hcol.
  destruct matrix as [|row matrix];
    [unfold d3.min_length in Hcol; simpl in Hcol; lia|].
  intros ->. simpl in Hlen. lia.
Qed.

(** ** The fixed-axis queries *)

Lemma foldl_andb (a : bool) (rest : list bool) :
  foldl andb a rest = a && forallb id rest.
Proof.
  revert a. induction rest as [|b rest IH]; intros a; simpl.
  - by rewrite andb_true_r.
  - rewrite IH. by rewrite andb_assoc.
Qed.

(** The reduction with [&&] and no initial value: no result on the empty
    array, the conjunction otherwise. *)
Lemma reduce_andb (bools : list bool) :
  Array.reduce andb bools
  = if decide (bools = []) then None else Some (forallb id bools).
Proof.
  destruct bools as [|b bools]; [done|].
  cbn [Array.reduce]. rewrite decide_False by done. by rewrite foldl_andb.
Qed.

Lemma forallb_fmap {A} (f : A → bool) (l : list A) :
  forallb id (f <$> l) = forallb f l.
Proof. induction l as [|x l IH]; [done|]. simpl. by rewrite <- IH. Qed.

(** The inner map of [fixedSpace]: it completes when no group is empty. *)
Lemma fixedSpace_groups (groups : list (list Component))
    (f : Component → bool) (index : nat) :
  map_throwing (λ (g : list Component) (_ : nat),
      match Array.reduce andb (f <$> g) with
      | Some b => Return b
      | None => Throw TypeError
      end) groups index
  = if decide (Forall (λ g, g ≠ []) groups)
    then Return (forallb f <$> groups) else Throw TypeError.
Proof.
  revert index. induction groups as [|g groups IH]; intros index.
  - by rewrite decide_True by constructor.
  - cbn [map_throwing]. rewrite reduce_andb, IH.
    destruct g as [|c g].
    + rewrite (decide_False (P := Forall _ ([] :: groups)));
        [done|]. intros H. by apply Forall_cons in H as (H & _).
    + rewrite (decide_False (P := f <$> c :: g = [])) by done. cbn [obind].
      destruct (decide (Forall (λ g, g ≠ []) groups)) as [Hall|Hex].
      * rewrite decide_True by (by constructor).
        cbn [obind]. by rewrite forallb_fmap.
      * rewrite decide_False; [done|].
        intros H. by apply Forall_cons in H as (_ & H).
Qed.

(** [fixedSpace] returns the conjunction over all the cells when there is
    a group and no group is empty, and throws otherwise. *)
Lemma fixedSpace_spec (groups : list (list Component)) (f : Component → bool) :
  fixedSpace groups f
  = if decide (groups ≠ [] ∧ Forall (λ g, g ≠ []) groups)
    then Return (forallb (forallb f) groups) else Throw TypeError.
Proof.
  unfold fixedSpace. rewrite fixedSpace_groups.
  destruct (decide (Forall (λ g, g ≠ []) groups)) as [Hall|Hex].
  - cbn [obind]. rewrite reduce_andb.
    destruct groups as [|g groups].
    + by rewrite (decide_False (P := [] ≠ [] ∧ _)) by tauto.
    + rewrite (decide_False (P := _ = [])) by done.
      rewrite decide_True by done. by rewrite forallb_fmap.
  - cbn [obind]. by rewrite decide_False by tauto.
Qed.

(** C9.  [isFixedHeight] and [isFixedWidth] throw on a table without rows,
    and [isFixedWidth] also when the transposed grid has no column: the
    reduction with [&&] has no initial value.  Each query returns a boolean,
    the conjunction over the cells it reduces, exactly when it reduces at
    least one group and none of its groups is empty; otherwise it throws.
    The queries leave the table as it is. *)
Theorem fixed_axis_queries_partial (t : Table) :
  (rows t = [] →
     isFixedHeight t = (Throw TypeError, t)
     ∧ isFixedWidth t = (Throw TypeError, t))
  ∧ (d3.transpose (rows t) = [] → isFixedWidth t = (Throw TypeError, t))
  ∧ isFixedHeight t
    = (if decide (rows t ≠ [] ∧ Forall (λ row, row ≠ []) (rows t))
       then Return (forallb (forallb cIsFixedHeight) (rows t))
       else Throw TypeError, t)
  ∧ isFixedWidth t
    = (if decide (d3.transpose (rows t) ≠ [])
       then Return (forallb (forallb cIsFixedWidth) (d3.transpose (rows t)))
       else Throw TypeError, t).
Proof.
  assert (Hh : isFixedHeight t
    = (if decide (rows t ≠ [] ∧ Forall (λ row, row ≠ []) (rows t))
       then Return (forallb (forallb cIsFixedHeight) (rows t))
       else Throw TypeError, t)).
  { unfold isFixedHeight, bind, get, liftO. by rewrite fixedSpace_spec. }
  assert (Hw : isFixedWidth t
    = (if decide (d3.transpose (rows t) ≠ [])
       then Return (forallb (forallb cIsFixedWidth) (d3.transpose (rows t)))
       else Throw TypeError, t)).
  { unfold isFixedWidth, bind, get, liftO. rewrite fixedSpace_spec.
    pose proof (transpose_columns_nonempty (rows t)) as Hne.
    destruct (decide (d3.transpose (rows t) ≠ [])) as [Hc|Hc].
    - by rewrite decide_True by done.
    - by rewrite decide_False by tauto. }
  split_and!; try done.
  - intros Hrows. split.
    + rewrite Hh, Hrows. by rewrite decide_False by tauto.
    + rewrite Hw, Hrows, transpose_nil. by rewrite decide_False by tauto.
  - intros Hcols. rewrite Hw, Hcols. by rewrite decide_False by tauto.
Qed.

(** Claim C9 on the table without rows and on the table of one empty row. *)
Lemma fixed_axis_queries_partial_witness :
  (isFixedHeight (constructor [])).1 = Throw TypeError
  ∧ (isFixedWidth (constructor [])).1 = Throw TypeError
  ∧ (isFixedWidth (constructor [[]])).1 = Throw TypeError.
Proof.
  destruct (fixed_axis_queries_partial (constructor [])) as (Hrows & _).
  destruct (fixed_axis_queries_partial (constructor [[]])) as (_ & Hcols & _).
  destruct (Hrows eq_refl) as (Hh & Hw).
  split_and!.
  - by rewrite Hh.
  - by rewrite Hw.
  - by rewrite (Hcols eq_refl).
Defined.

(** ** Weight resolution *)

(** A map that returns has applied the callback to every element. *)
Lemma map_throwing_Return {A B} (f : A → nat → Outcome B) (arr : list A)
    (index : nat) (ys : list B) :
  map_throwing f arr index = Return ys →
  length ys = length arr
  ∧ ∀ i x, arr !! i = Some x →
      ∃ y, f x (index + i)%nat = Return y ∧ ys !! i = Some y.
Proof.
  revert index ys. induction arr as [|x0 arr IH]; intros index ys.
  - simpl. intros [= <-]. split; [done|]. intros i x Hx. done.
  - cbn [map_throwing].
    destruct (f x0 index) as [y0|e] eqn:Hy0; [|done]. cbn [obind].
    destruct (map_throwing f arr (S index)) as [ys0|e] eqn:Hys0; [|done].
    cbn [obind]. intros [= <-].
    destruct (IH (S index) ys0 Hys0) as (Hlen & Hall).
    split; [simpl; by rewrite Hlen|].
    intros [|i] x Hx; simpl in Hx.
    + injection Hx as <-. exists y0. by rewrite Nat.add_0_r.
    + destruct (Hall i x Hx) as (y & Hy & Hi). exists y.
      by replace (index + S i)%nat with (S index + i)%nat by lia.
Qed.

(** A map returns when the callback returns on every element. *)
Lemma map_throwing_total {A B} (f : A → nat → Outcome B) (arr : list A)
    (index : nat) :
  (∀ i x, arr !! i = Some x → ∃ y, f x (index + i)%nat = Return y) →
  ∃ ys, map_throwing f arr index = Return ys.
Proof.
  revert index. induction arr as [|x0 arr IH]; intros index Hall.
  - by exists [].
  - cbn [map_throwing].
    destruct (Hall 0%nat x0 eq_refl) as (y0 & Hy0).
    rewrite Nat.add_0_r in Hy0. rewrite Hy0. cbn [obind].
    destruct (IH (S index)) as (ys & Hys).
    { intros i x Hx. destruct (Hall (S i) x Hx) as (y & Hy). exists y.
      by replace (S index + i)%nat with (index + S i)%nat by lia. }
    rewrite Hys. by exists (y0 :: ys).
Qed.

(** The callback of [calcComponentWeights] on an unset weight: it reduces
    the group of the same index, and throws when there is no such group or
    when the group is empty. *)
Lemma componentWeight_unset (groups : list (list Component))
    (fixity : Component → bool) (i : nat) :
  componentWeight groups fixity None i
  = match groups !! i with
    | Some group =>
        if decide (group = []) then Throw TypeError
        else Return (if forallb fixity group then 0 else 1)
    | None => Throw TypeError
    end.
Proof.
  unfold componentWeight. destruct (groups !! i) as [group|]; [|done].
  rewrite reduce_andb, forallb_fmap.
  destruct group as [|c group]; [done|].
  by rewrite (decide_False (P := fixity <$> c :: group = [])) by done.
Qed.

Lemma forallb_all {A} (f : A → bool) (l : list A) :
  forallb f l = true ↔ ∀ x, x ∈ l → f x = true.
Proof.
  rewrite forallb_forall. split; intros H x Hx; apply H.
  - by apply list_elem_of_In.
  - by apply list_elem_of_In.
Qed.

(** The weights [calcComponentWeights] returns, cell by cell. *)
Lemma calcComponentWeights_Return (setWeights : list (option (option number)))
    (groups : list (list Component)) (fixity : Component → bool)
    (ws : list value) :
  calcComponentWeights setWeights groups fixity = Return ws →
  length ws = length setWeights
  ∧ ∀ i,
      (∀ w, Sparse.get setWeights i = Some (Some w) → Sparse.get ws i = Some w)
      ∧ (Sparse.get setWeights i = Some None →
           ∃ group, groups !! i = Some group ∧ group ≠ []
             ∧ ((∀ c, c ∈ group → fixity c = true) → Sparse.get ws i = Some 0)
             ∧ ((∃ c, c ∈ group ∧ fixity c = false) → Sparse.get ws i = Some 1)).
Proof.
  unfold calcComponentWeights, map_throwing_sparse. intros Hret.
  apply map_throwing_Return in Hret as (Hlen & Hall).
  split; [done|]. intros i. unfold Sparse.get.
  destruct (setWeights !! i) as [[[w|]|]|] eqn:Hi; simpl.
  - (* an explicit weight *)
    destruct (Hall i _ Hi) as (y & Hy & Hws). simpl in Hy.
    injection Hy as <-. rewrite Hws. split; [|done].
    by intros w' [= <-].
  - (* an unset weight *)
    destruct (Hall i _ Hi) as (y & Hy & Hws). cbv beta iota in Hy.
    change (0 + i)%nat with i in Hy.
    rewrite componentWeight_unset in Hy. split; [done|]. intros _.
    destruct (groups !! i) as [group|]; [|done].
    destruct (decide (group = [])) as [|Hne]; [done|].
    cbn [obind] in Hy. injection Hy as <-. exists group.
    split_and!; try done; rewrite Hws; simpl.
    + intros Hfixed. apply forallb_all in Hfixed. by rewrite Hfixed.
    + intros (c & Hc & Hfree).
      destruct (forallb fixity group) eqn:Hfixed; [|done].
      rewrite forallb_all in Hfixed. specialize (Hfixed c Hc). congruence.
  - split; [done|]. done.
  - split; [done|]. done.
Qed.

(** [calcComponentWeights] returns exactly when every unset weight has a
    group with at least one component. *)
Lemma calcComponentWeights_total (setWeights : list (option (option number)))
    (groups : list (list Component)) (fixity : Component → bool) :
  (∀ i, Sparse.get setWeights i = Some None →
        ∃ group, groups !! i = Some group ∧ group ≠ [])
  ↔ ∃ ws, calcComponentWeights setWeights groups fixity = Return ws.
Proof.
  split.
  - intros Hall. unfold calcComponentWeights, map_throwing_sparse.
    apply map_throwing_total. intros i [[w|]|] Hi; cbv beta iota.
    + by eexists.
    + destruct (Hall i) as (group & Hg & Hne).
      { unfold Sparse.get. by rewrite Hi. }
      change (0 + i)%nat with i.
      rewrite componentWeight_unset, Hg. rewrite decide_False by done.
      by eexists.
    + by eexists.
  - intros (ws & Hret) i Hi.
    destruct (calcComponentWeights_Return _ _ _ _ Hret) as (_ & Hall).
    destruct (Hall i) as (_ & Hunset).
    destruct (Hunset Hi) as (group & Hg & Hne & _). eauto.
Qed.

(** C2.  The weight of a row that has no explicit weight and all of whose
    components are of fixed height is 0, says the comment in
    [calcComponentWeights]; a row without component is such a row, but the
    reduction of its empty array of answers has no initial value: the
    table [new Table([[]])] has one row, of unset weight, and the
    resolution of its row weights throws a TypeError, as does its layout
    in a space of 0 by 0, which is its minimum. *)
Lemma weight_of_empty_row_throws :
  let t := constructor [[]] in
  rows t = [[]] ∧ rowWeights t = [Some None]
  ∧ calcComponentWeights (rowWeights t) (rows t) cIsFixedHeight = Throw TypeError
  ∧ (computeLayout 0 0 0 0 (t, [])).1 = Throw TypeError.
Proof. cbv zeta. split_and!; reflexivity. Qed.

(** X18.  When the weights of a layout resolve, the weight of a row is
    the explicit weight verbatim when one was set, zero included; when it
    is unset the row holds at least one component and its weight is 0 if
    every component of the row is fixed-height and 1 if one is not.  The
    same holds for a column, with the components of the column of the
    transposed grid and their fixed-width answers. *)
Theorem layout_weights (t : Table) :
  (∀ ws, calcComponentWeights (rowWeights t) (rows t) cIsFixedHeight = Return ws →
     ∀ i,
       (∀ w, Sparse.get (rowWeights t) i = Some (Some w) →
             Sparse.get ws i = Some w)
       ∧ (Sparse.get (rowWeights t) i = Some None →
            ∃ row, rows t !! i = Some row ∧ row ≠ []
              ∧ ((∀ c, c ∈ row → cIsFixedHeight c = true) →
                   Sparse.get ws i = Some 0)
              ∧ ((∃ c, c ∈ row ∧ cIsFixedHeight c = false) →
                   Sparse.get ws i = Some 1)))
  ∧ (∀ ws, calcComponentWeights (colWeights t) (d3.transpose (rows t))
             cIsFixedWidth = Return ws →
     ∀ j,
       (∀ w, Sparse.get (colWeights t) j = Some (Some w) →
             Sparse.get ws j = Some w)
       ∧ (Sparse.get (colWeights t) j = Some None →
            ∃ col, d3.transpose (rows t) !! j = Some col ∧ col ≠ []
              ∧ length col = length (rows t)
              ∧ (∀ i, col !! i = cell (rows t) i j)
              ∧ ((∀ c, c ∈ col → cIsFixedWidth c = true) →
                   Sparse.get ws j = Some 0)
              ∧ ((∃ c, c ∈ col ∧ cIsFixedWidth c = false) →
                   Sparse.get ws j = Some 1))).
Proof.
  split.
  - intros ws Hret i.
    destruct (calcComponentWeights_Return _ _ _ _ Hret) as (_ & Hall).
    apply Hall.
  - intros ws Hret j.
    destruct (calcComponentWeights_Return _ _ _ _ Hret) as (_ & Hall).
    destruct (Hall j) as (Hset & Hunset). split; [done|].
    intros Hj. destruct (Hunset Hj) as (col & Hcol & Hne & H0 & H1).
    destruct (transpose_lookup _ _ _ Hcol) as (Hlen & Hcells).
    exists col. split_and!; done.
Qed.

(** X18 on a table of one row holding a fixed-height label next to a
    plot: the unset weight of the row resolves to 1, and an explicit weight
    0 is taken as it is. *)
Lemma layout_weights_witness :
  let a := mkComponent "Label" (num 10) (num 20) true true in
  let b := mkComponent "Plot" (num 30) (num 40) false false in
  let t := constructor [[Some a; Some b]] in
  calcComponentWeights (rowWeights t) (rows t) cIsFixedHeight = Return [Some 1]
  ∧ Sparse.get [Some 1] 0 = Some 1
  ∧ Sparse.get [Some (num 0)] 0 = Some (num 0).
Proof.
  cbv zeta.
  set (a := mkComponent "Label" (num 10) (num 20) true true).
  set (b := mkComponent "Plot" (num 30) (num 40) false false).
  set (t := constructor [[Some a; Some b]]).
  destruct (layout_weights t) as (Hrows & _).
  destruct (layout_weights (rowWeight 0 (num 0) t).2) as (Hrows0 & _).
  split; [reflexivity|]. split.
  - destruct (Hrows [Some 1] eq_refl 0%nat) as (_ & Hunset).
    destruct (Hunset eq_refl) as (row & Hrow & _ & _ & H1).
    apply H1. exists b. injection Hrow as <-. split; [|done].
    apply list_elem_of_further, list_elem_of_here.
  - destruct (Hrows0 [Some (num 0)] eq_refl 0%nat) as (Hset & _).
    by apply Hset.
Defined.

(** ** The minimum queries *)

Lemma rowMinimum_spec (t : Table) :
  rowMinimum None t = (Return (totalRowMinimum t), set_rowMinimums (rowMins t) t).
Proof. reflexivity. Qed.

Lemma colMinimum_spec (t : Table) :
  colMinimum None t = (Return (totalColMinimum t), set_colMinimums (colMins t) t).
Proof. reflexivity. Qed.

Lemma d3_max_is_maximum (group : list Component) (f : Component → number) :
  is_maximum (d3.max gtb group f) (f <$> group).
Proof.
  pose proof (d3_max_number_spec group f) as H. unfold is_maximum.
  destruct (d3.max gtb group f); [done|]. by rewrite H.
Qed.

(** C3.  [rowMinimum()] assigns to [rowMinimums], for every row, the
    maximum of the [rowMinimum()] of its components ([undefined] for a row
    without component; a placeholder counts for 0), whatever the array held
    before, and returns the sum of these minimums plus [rowPadding] times
    the number of rows minus 1.  [colMinimum()] does the same on the
    columns of the transposed grid with [colMinimum()] and [colPadding].
    Called with a value, either query throws NotSettable and changes
    nothing. *)
Theorem minimum_queries (t : Table) :
  (let r := rowMinimum None t in
   r.1 = Return (d3.sum (rowMinimums r.2)
                 + rowPadding t * (num (Z.of_nat (length (rows t))) - 1))
   ∧ length (rowMinimums r.2) = length (rows t)
   ∧ (∀ i row, rows t !! i = Some row →
        ∃ m, rowMinimums r.2 !! i = Some m
             ∧ is_maximum m (cRowMinimum <$> row))
   ∧ r.2 = set_rowMinimums (rowMinimums r.2) t
   ∧ ∀ stale, rowMinimum None (set_rowMinimums stale t) = (r.1, r.2))
  ∧ (let r := colMinimum None t in
     let cols := d3.transpose (rows t) in
     r.1 = Return (d3.sum (colMinimums r.2)
                   + colPadding t * (num (Z.of_nat (length cols)) - 1))
     ∧ length (colMinimums r.2) = length cols
     ∧ (∀ j col, cols !! j = Some col →
          ∃ m, colMinimums r.2 !! j = Some m
               ∧ is_maximum m (cColMinimum <$> col))
     ∧ r.2 = set_colMinimums (colMinimums r.2) t
     ∧ ∀ stale, colMinimum None (set_colMinimums stale t) = (r.1, r.2))
  ∧ cRowMinimum newComponent = 0 ∧ cColMinimum newComponent = 0
  ∧ ∀ newVal, rowMinimum (Some newVal) t = (Throw NotSettable, t)
              ∧ colMinimum (Some newVal) t = (Throw NotSettable, t).
Proof.
  split; [|split; [|split; [|split]]]; [| |reflexivity|reflexivity|done].
  - rewrite rowMinimum_spec. cbv zeta. cbn [fst snd rowMinimums set_rowMinimums].
    split; [|split; [|split; [|split]]].
    + reflexivity.
    + unfold rowMins. by rewrite length_fmap.
    + intros i row Hrow. unfold rowMins. rewrite list_lookup_fmap, Hrow.
      eexists. split; [reflexivity|]. apply d3_max_is_maximum.
    + by destruct t.
    + intros stale. rewrite rowMinimum_spec. by destruct t.
  - rewrite colMinimum_spec. cbv zeta. cbn [fst snd colMinimums set_colMinimums].
    split; [|split; [|split; [|split]]].
    + reflexivity.
    + unfold colMins. by rewrite length_fmap.
    + intros j col Hcol. unfold colMins. rewrite list_lookup_fmap, Hcol.
      eexists. split; [reflexivity|]. apply d3_max_is_maximum.
    + by destruct t.
    + intros stale. rewrite colMinimum_spec. by destruct t.
Qed.

(** Claim C3 on a row of a label of height 10, an empty cell and a plot of
    height 30, with a row padding of 4: the row minimum is 30; a second,
    empty row adds the padding once. *)
Lemma minimum_queries_witness :
  let a := mkComponent "Label" (num 10) (num 20) true true in
  let b := mkComponent "Plot" (num 30) (num 40) false false in
  let t := (padding (num 4) (num 2) (constructor [[Some a; None; Some b]; []])).2 in
  rows t !! 0%nat = Some [a; newComponent; b]
  ∧ (∃ m, rowMinimums (rowMinimum None t).2 !! 0%nat = Some m
          ∧ is_maximum m (cRowMinimum <$> [a; newComponent; b]))
  ∧ rowMinimums (rowMinimum None t).2 = [Some (num 30); None]
  ∧ (rowMinimum None t).1 = Return (num 34).
Proof.
  cbv zeta.
  set (a := mkComponent "Label" (num 10) (num 20) true true).
  set (b := mkComponent "Plot" (num 30) (num 40) false false).
  set (t := (padding (num 4) (num 2) (constructor [[Some a; None; Some b]; []])).2).
  destruct (minimum_queries t) as ((Htotal & _ & Hrows & _) & _).
  split_and!.
  - reflexivity.
  - by apply Hrows.
  - compute_done.
  - rewrite Htotal. compute_done.
Defined.

(** ** [computeLayout]: the checks *)

Lemma Qclt_sub_0 (a b : number) : a - b < 0 ↔ a < b.
Proof.
  rewrite (Qcplus_lt_mono_r (a - b) 0 b).
  by replace (a - b + b) with a by ring; replace (0 + b) with b by ring.
Qed.

(** The steps of [computeLayout]: both caches of minimums are recomputed,
    then the space is checked, then the weights are resolved, and only then
    the children are laid out. *)
Lemma computeLayout_spec (x y availableWidth availableHeight : number)
    (t : Table) (log : list LayoutCall) :
  computeLayout x y availableWidth availableHeight (t, log)
  = let t' := refreshed t in
    if decide (availableWidth < totalColMinimum t
               ∨ availableHeight < totalRowMinimum t)
    then (Throw InsufficientSpace, (t', log))
    else
      match calcComponentWeights (rowWeights t) (rows t) cIsFixedHeight with
      | Throw e => (Throw e, (t', log))
      | Return rowWeights' =>
          match calcComponentWeights (colWeights t) (d3.transpose (rows t))
                  cIsFixedWidth with
          | Throw e => (Throw e, (t', log))
          | Return colWeights' =>
              (Return tt,
               (t', layoutChildren t'
                      (sizes (calcProportionalSpace colWeights'
                                (availableWidth - totalColMinimum t))
                             (colMins t))
                      (sizes (calcProportionalSpace rowWeights'
                                (availableHeight - totalRowMinimum t))
                             (rowMins t))
                      log))
          end
      end.
Proof.
  unfold computeLayout, bind, onTable. cbn [fst snd].
  rewrite colMinimum_spec. cbn [fst snd].
  rewrite rowMinimum_spec. cbn [fst snd].
  change (set_rowMinimums (rowMins (set_colMinimums (colMins t) t))
            (set_colMinimums (colMins t) t)) with (refreshed t).
  change (totalRowMinimum (set_colMinimums (colMins t) t))
    with (totalRowMinimum t).
  cbv zeta. unfold ltb.
  destruct (decide (availableWidth < totalColMinimum t
                    ∨ availableHeight < totalRowMinimum t)) as [Hlow|Hfit].
  - assert (bool_decide (availableWidth - totalColMinimum t < 0)
            || bool_decide (availableHeight - totalRowMinimum t < 0) = true)
      as ->; [|done].
    apply orb_true_iff. rewrite !bool_decide_eq_true, !Qclt_sub_0. done.
  - assert (bool_decide (availableWidth - totalColMinimum t < 0)
            || bool_decide (availableHeight - totalRowMinimum t < 0) = false)
      as ->.
    { apply orb_false_iff. rewrite !bool_decide_eq_false, !Qclt_sub_0. tauto. }
    unfold get, liftO, modify. cbn [fst snd].
    change (rows (refreshed t)) with (rows t).
    change (rowWeights (refreshed t)) with (rowWeights t).
    change (colWeights (refreshed t)) with (colWeights t).
    destruct (calcComponentWeights (rowWeights t) (rows t) cIsFixedHeight);
      [|done].
    destruct (calcComponentWeights (colWeights t) (d3.transpose (rows t))
                cIsFixedWidth); [|done].
    done.
Qed.

(** ** [computeLayout]: the offsets *)

Lemma sumBefore_S (size : nat → value) (k : nat) :
  sumBefore size (S k) = vadd (sumBefore size k) (size k).
Proof. unfold sumBefore. by rewrite seq_S, fmap_app, foldl_app. Qed.

Lemma offsetOf_0 (size : nat → value) (padding : number) :
  offsetOf size padding 0 = Some 0.
Proof. reflexivity. Qed.

(** One step of the running offset: [offset += size + padding]. *)
Lemma offsetOf_S (size : nat → value) (padding : number) (k : nat) :
  vadd (offsetOf size padding k) (vadd (size k) (Some padding))
  = offsetOf size padding (S k).
Proof. unfold offsetOf. by rewrite seq_S, foldl_app. Qed.

(** In exact arithmetic the running offset is the closed form of the
    specification, the sizes before the cell plus one padding for each of
    them.  The two differ in binary64, where every addition rounds. *)
Lemma offsetOf_closed_form (size : nat → value) (padding : number) (k : nat) :
  offsetOf size padding k
  = vadd (sumBefore size k) (Some (num (Z.of_nat k) * padding)).
Proof.
  induction k as [|k IH].
  - unfold offsetOf, sumBefore.
    cbn [seq fmap list_fmap foldl vadd Z.of_nat]. f_equal.
  - rewrite <- offsetOf_S, IH, sumBefore_S, num_succ.
    destruct (sumBefore size k) as [s|], (size k) as [w|]; simpl; try done.
    f_equal. ring.
Qed.

(** The inner [forEach], started at the column [c0] with the offset of that
    column: every component of the row is laid out at the offset of its
    column. *)
Lemma layout_row (colWidth : nat → value) (colPadding : number)
    (childYOffset height : value) (row : list Component) (c0 : nat)
    (log : list LayoutCall) :
  Array.forEach_from
    (λ '(childXOffset, log) (component : Component) colIndex,
       let log := log ++ [mkLayoutCall component childXOffset childYOffset
                            (colWidth colIndex) height] in
       (vadd childXOffset (vadd (colWidth colIndex) (Some colPadding)), log))
    row c0 (offsetOf colWidth colPadding c0, log)
  = (offsetOf colWidth colPadding (c0 + length row)%nat,
     log ++ imap (λ c component,
              mkLayoutCall component (offsetOf colWidth colPadding (c0 + c)%nat)
                childYOffset (colWidth (c0 + c)%nat) height) row).
Proof.
  revert c0 log. induction row as [|component row IH]; intros c0 log.
  - simpl. by rewrite Nat.add_0_r, app_nil_r.
  - cbn [Array.forEach_from]. cbv zeta. rewrite offsetOf_S, IH.
    f_equal; [f_equal; simpl; lia|].
    rewrite <- app_assoc. cbn [imap app]. rewrite Nat.add_0_r.
    do 2 f_equal. apply imap_ext. intros c x _. simpl.
    by replace (c0 + S c)%nat with (S (c0 + c)) by lia.
Qed.

(** The outer [forEach], started at the row [r0] with the offset of that
    row. *)
Lemma layout_rows (colWidth rowHeight : nat → value)
    (colPadding rowPadding : number) (grid : list (list Component))
    (r0 : nat) (log : list LayoutCall) :
  Array.forEach_from
    (λ '(childYOffset, log) (row : list Component) rowIndex,
       let '(childXOffset, log) :=
         Array.forEach
           (λ '(childXOffset, log) (component : Component) colIndex,
              let log := log ++ [mkLayoutCall component childXOffset childYOffset
                                   (colWidth colIndex) (rowHeight rowIndex)] in
              (vadd childXOffset (vadd (colWidth colIndex) (Some colPadding)),
               log))
           row (Some 0, log) in
       (vadd childYOffset (vadd (rowHeight rowIndex) (Some rowPadding)), log))
    grid r0 (offsetOf rowHeight rowPadding r0, log)
  = (offsetOf rowHeight rowPadding (r0 + length grid)%nat,
     log ++ concat (imap (λ r (row : list Component),
               imap (λ c component,
                 mkLayoutCall component (offsetOf colWidth colPadding c)
                   (offsetOf rowHeight rowPadding (r0 + r)%nat)
                   (colWidth c) (rowHeight (r0 + r)%nat)) row) grid)).
Proof.
  revert r0 log. induction grid as [|row grid IH]; intros r0 log.
  - simpl. by rewrite Nat.add_0_r, app_nil_r.
  - cbn [Array.forEach_from]. unfold Array.forEach.
    rewrite <- (offsetOf_0 colWidth colPadding).
    rewrite layout_row. rewrite offsetOf_S, IH.
    f_equal; [f_equal; simpl; lia|].
    rewrite <- app_assoc. cbn [imap concat]. rewrite Nat.add_0_r.
    do 2 f_equal. f_equal. apply imap_ext. intros r x _. simpl.
    by replace (r0 + S r)%nat with (S (r0 + r)) by lia.
Qed.

(** The invocations of [layoutChildren], in closed form. *)
Lemma layoutChildren_spec (t : Table) (colWidths rowHeights : list value)
    (log : list LayoutCall) :
  layoutChildren t colWidths rowHeights log
  = log ++ expectedCalls t (Sparse.get colWidths) (Sparse.get rowHeights).
Proof.
  unfold layoutChildren, Array.forEach at 1.
  rewrite <- (offsetOf_0 (Sparse.get rowHeights) (rowPadding t)).
  rewrite (layout_rows (Sparse.get colWidths) (Sparse.get rowHeights)).
  reflexivity.
Qed.

(** A row height is the proportional space of the row plus its minimum, in
    the arithmetic of JavaScript; the same for a column width. *)
Lemma sizes_get (space minimums : list value) (k : nat) :
  Sparse.get (sizes space minimums) k
  = vadd (Sparse.get space k) (Sparse.get minimums k).
Proof.
  unfold Sparse.get, sizes, d3.zip.
  rewrite list_lookup_fmap, lookup_zip_with.
  destruct (space !! k) as [[s|]|], (minimums !! k) as [[m|]|]; done.
Qed.

Lemma offsetOf_ext (f g : nat → value) (padding : number) (k : nat) :
  (∀ i, f i = g i) → offsetOf f padding k = offsetOf g padding k.
Proof.
  intros Hfg. induction k as [|k IH]; [done|].
  by rewrite <- !offsetOf_S, IH, Hfg.
Qed.

Lemma expectedCalls_ext (t : Table) (w w' h h' : nat → value) :
  (∀ c, w c = w' c) → (∀ r, h r = h' r) →
  expectedCalls t w h = expectedCalls t w' h'.
Proof.
  intros Hw Hh. unfold expectedCalls. f_equal.
  apply imap_ext. intros r row _. apply imap_ext. intros c component _.
  cbv beta.
  by rewrite (offsetOf_ext w w' _ c Hw), (offsetOf_ext h h' _ r Hh), Hw, Hh.
Qed.

Lemma expectedCalls_cell (t : Table) (w h : nat → value) (r c : nat)
    (component : Component) :
  cell (rows t) r c = Some component →
  mkLayoutCall component (offsetOf w (colPadding t) c)
    (offsetOf h (rowPadding t) r) (w c) (h r)
  ∈ expectedCalls t w h.
Proof.
  unfold cell. intros Hcell.
  destruct (rows t !! r) as [row|] eqn:Hrow; [|done]. simpl in Hcell.
  unfold expectedCalls. apply list_elem_of_In, in_concat.
  eexists. split; apply list_elem_of_In.
  - apply (elem_of_lookup_imap_2 _ _ _ _ Hrow).
  - apply (elem_of_lookup_imap_2
             (λ c component,
                mkLayoutCall component (offsetOf w (colPadding t) c)
                  (offsetOf h (rowPadding t) r) (w c) (h r)) _ _ _ Hcell).
Qed.

(** In binary64 the running offset is not the closed form.  Six columns of
    minimum 0 and weight 1 with a padding of 2 in a width of 17: the free
    width is 7 and every column is 1.1666666666666667 wide; the offset
    handed to the sixth child, advanced five times by a width plus the
    padding, is 15.833333333333336, and the sum of the five widths before
    it plus five paddings is 15.833333333333334. *)
Lemma running_offset_is_not_the_closed_form :
  let colMinimums := replicate 6 0%float in
  let colWeights := replicate 6 1%float in
  let colPadding := 2%float in
  let availableWidth := 17%float in
  let colMinimum :=
    (Double.sum colMinimums + colPadding * (Double.num 6 - 1))%float in
  let freeWidth := (availableWidth - colMinimum)%float in
  let colWidths :=
    Double.sizes (Double.calcProportionalSpace colWeights freeWidth)
      colMinimums in
  let closedForm :=
    (Double.sum (take 5 colWidths) + Double.num 5 * colPadding)%float in
  freeWidth = 7%float
  ∧ Double.offsets 0%float colWidths colPadding !! 5%nat
    = Some 0x1.faaaaaaaaaaacp+3%float
  ∧ closedForm = 0x1.faaaaaaaaaaabp+3%float
  ∧ Double.offsets 0%float colWidths colPadding !! 5%nat ≠ Some closedForm.
Proof. vm_compute. split_and!; [reflexivity..|discriminate]. Qed.

(** C5 (amended).  A call of [computeLayout] that returns has resolved the
    weights of the rows and of the columns, and has invoked [computeLayout]
    on the children, row by row and left to right, and on nothing else.
    The child of the cell [(r, c)] got the size [(colWidths[c],
    rowHeights[r])], where a row height is the minimum of the row plus its
    proportional space and a column width the minimum of the column plus
    its proportional space, and the running offsets of its column and of
    its row: the horizontal offset is 0 for the first column and is
    advanced by [colWidths[j] + colPadding] after every column [j], the
    vertical offset is 0 for the first row and is advanced by
    [rowHeights[i] + rowPadding] after every row [i].  A padding is
    counted for every cell before the target, none after it. *)
Theorem computeLayout_places_children
    (x y availableWidth availableHeight : number) (t t' : Table)
    (log log' : list LayoutCall) :
  computeLayout x y availableWidth availableHeight (t, log)
  = (Return tt, (t', log')) →
  ∃ rowWeights' colWeights',
    calcComponentWeights (rowWeights t) (rows t) cIsFixedHeight
    = Return rowWeights'
    ∧ calcComponentWeights (colWeights t) (d3.transpose (rows t)) cIsFixedWidth
      = Return colWeights'
    ∧ let rowSpace := calcProportionalSpace rowWeights'
                        (availableHeight - totalRowMinimum t) in
      let colSpace := calcProportionalSpace colWeights'
                        (availableWidth - totalColMinimum t) in
      let rowHeight r := vadd (Sparse.get rowSpace r) (Sparse.get (rowMins t) r) in
      let colWidth c := vadd (Sparse.get colSpace c) (Sparse.get (colMins t) c) in
      log' = log ++ expectedCalls t colWidth rowHeight
      ∧ (∀ r c component, cell (rows t) r c = Some component →
           mkLayoutCall component
             (offsetOf colWidth (colPadding t) c)
             (offsetOf rowHeight (rowPadding t) r)
             (colWidth c) (rowHeight r) ∈ log')
      ∧ t' = refreshed t
      ∧ (∀ size padding,
           offsetOf size padding 0 = Some 0
           ∧ ∀ k, offsetOf size padding (S k)
                  = vadd (offsetOf size padding k)
                         (vadd (size k) (Some padding))).
Proof.
  rewrite computeLayout_spec. cbv zeta.
  destruct (decide _) as [|Hfit]; [done|].
  destruct (calcComponentWeights (rowWeights t) (rows t) cIsFixedHeight)
    as [rowWeights'|]; [|done].
  destruct (calcComponentWeights (colWeights t) (d3.transpose (rows t))
              cIsFixedWidth) as [colWeights'|]; [|done].
  intros [= <- <-]. exists rowWeights', colWeights'.
  split; [done|]. split; [done|].
  rewrite layoutChildren_spec.
  rewrite (expectedCalls_ext (refreshed t) _
             (λ c, vadd (Sparse.get (calcProportionalSpace colWeights'
                                       (availableWidth - totalColMinimum t)) c)
                        (Sparse.get (colMins t) c)) _
             (λ r, vadd (Sparse.get (calcProportionalSpace rowWeights'
                                       (availableHeight - totalRowMinimum t)) r)
                        (Sparse.get (rowMins t) r)))
    by (intros k; apply sizes_get).
  change (expectedCalls (refreshed t)) with (expectedCalls t).
  split; [done|]. split; [|split; [done|]].
  - intros r c component Hcell. apply elem_of_app. right.
    by apply expectedCalls_cell.
  - intros size padding. split; [apply offsetOf_0|].
    intros k. symmetry. apply offsetOf_S.
Qed.

(** The layout of the example of the specification: four components with
    the minimum sizes (10,10), (20,10), (10,30) and (20,30), none of them
    fixed, laid out in 60 by 60.  The column widths are 25 and 35 and the
    row heights 20 and 40. *)
Lemma computeLayout_example :
  let a := mkComponent "A" (num 10) (num 10) false false in
  let b := mkComponent "B" (num 10) (num 20) false false in
  let c := mkComponent "C" (num 30) (num 10) false false in
  let d := mkComponent "D" (num 30) (num 20) false false in
  let t := constructor [[Some a; Some b]; [Some c; Some d]] in
  let r := computeLayout 0 0 (num 60) (num 60) (t, []) in
  r.1 = Return tt
  ∧ r.2.2 = [mkLayoutCall a (Some (num 0)) (Some (num 0)) (Some (num 25)) (Some (num 20));
             mkLayoutCall b (Some (num 25)) (Some (num 0)) (Some (num 35)) (Some (num 20));
             mkLayoutCall c (Some (num 0)) (Some (num 20)) (Some (num 25)) (Some (num 40));
             mkLayoutCall d (Some (num 25)) (Some (num 20)) (Some (num 35)) (Some (num 40))].
Proof. cbv zeta. split; compute_done. Qed.

(** The amended claim C5 on the layout of the example. *)
Lemma computeLayout_places_children_witness :
  let a := mkComponent "A" (num 10) (num 10) false false in
  let b := mkComponent "B" (num 10) (num 20) false false in
  let c := mkComponent "C" (num 30) (num 10) false false in
  let d := mkComponent "D" (num 30) (num 20) false false in
  let t := constructor [[Some a; Some b]; [Some c; Some d]] in
  let r := computeLayout 0 0 (num 60) (num 60) (t, []) in
  r = (Return tt, (r.2.1, r.2.2))
  ∧ ∃ rowWeights' colWeights',
      calcComponentWeights (rowWeights t) (rows t) cIsFixedHeight
      = Return rowWeights'
      ∧ calcComponentWeights (colWeights t) (d3.transpose (rows t)) cIsFixedWidth
        = Return colWeights'
      ∧ r.2.2
        = [] ++ expectedCalls t
            (λ c, vadd (Sparse.get (calcProportionalSpace colWeights'
                                      (num 60 - totalColMinimum t)) c)
                       (Sparse.get (colMins t) c))
            (λ r, vadd (Sparse.get (calcProportionalSpace rowWeights'
                                      (num 60 - totalRowMinimum t)) r)
                       (Sparse.get (rowMins t) r)).
Proof.
  cbv zeta.
  set (t := constructor _).
  set (r := computeLayout 0 0 (num 60) (num 60) (t, [])).
  assert (Hr : r = (Return tt, (r.2.1, r.2.2))) by compute_done.
  split; [exact Hr|].
  destruct (computeLayout_places_children 0 0 (num 60) (num 60)
              t r.2.1 [] r.2.2 Hr)
    as (rowWeights' & colWeights' & Hrows & Hcols & Hlog & _).
  exists rowWeights', colWeights'. by split_and!.
Defined.

(** ** [computeLayout]: insufficient space *)



(** With no free space every share is zero. *)
Lemma calcProportionalSpace_zero (weights : list value) :
  calcProportionalSpace weights 0 = Sparse.map (λ _, 0) weights.
Proof.
  unfold calcProportionalSpace, Sparse.map.
  destruct (decide (d3.sum weights = 0)).
  - apply list_fmap_ext. intros _ [w|] _; [|done]. simpl. f_equal.
    unfold Qcdiv. ring.
  - apply list_fmap_ext. intros _ [w|] _; [|done]. simpl. f_equal.
    unfold Qcdiv. ring.
Qed.




(** ** The tables a program can build *)

Lemma computeLayout_state (x y availableWidth availableHeight : number)
    (t : Table) (log : list LayoutCall) :
  (computeLayout x y availableWidth availableHeight (t, log)).2.1 = refreshed t.
Proof.
  rewrite computeLayout_spec. cbv zeta.
  destruct (decide _); [done|].
  destruct (calcComponentWeights (rowWeights t) _ _); [|done].
  by destruct (calcComponentWeights (colWeights t) _ _).
Qed.

(** On every table a program can build the counters bound the grid, which
    is what the statements on [addComponent] assume. *)
Lemma reachable_counters_cover (t : Table) :
  reachable t → counters_cover t.
Proof.
  induction 1 as [input|t row col component _ IH|t e _ IH|t rp cp _ IH
                  |t index weight _ IH|t index weight _ IH
                  |t newVal _ IH|t newVal _ IH|t log x y w h _ IH].
  - apply constructor_counters_cover.
  - by apply addComponent_counters_cover.
  - exact IH.
  - exact IH.
  - exact IH.
  - exact IH.
  - by destruct newVal.
  - by destruct newVal.
  - by rewrite computeLayout_state.
Qed.

(** * Further properties *)

(** ** Padding again *)

Lemma for_upto_fixed {St} (n : nat) (body : St → nat → St) (s : St) :
  (∀ i, (i < n)%nat → body s i = s) → Array.for_upto n body s = s.
Proof.
  induction n as [|n IH]; intros Hfix; [done|].
  rewrite for_upto_S, IH by (intros i Hi; apply Hfix; lia).
  apply Hfix. lia.
Qed.

Lemma padTableRow_noop (nCols : nat) (t : Table) (i : nat) (row : list Component) :
  rows t !! i = Some row → (nCols ≤ length row)%nat →
  padTableRow nCols t i = t.
Proof.
  intros Hrow Hlen. unfold padTableRow. rewrite Hrow, Hrow.
  rewrite padRow_padded. unfold padded.
  replace (nCols - length row)%nat with 0%nat by lia.
  cbn [replicate]. rewrite app_nil_r, list_insert_id by done. by destruct t.
Qed.

Lemma padColWeight_noop (t : Table) (j : nat) :
  is_Some (Sparse.get (colWeights t) j) → padColWeight t j = t.
Proof. intros [w Hw]. unfold padColWeight. by rewrite Hw. Qed.

(** Padding to a size the table already has changes nothing. *)
Lemma padTableToSize_noop (nRows nCols : nat) (t : Table) :
  (nRows ≤ length (rows t))%nat →
  (∀ i row, (i < nRows)%nat → rows t !! i = Some row → (nCols ≤ length row)%nat) →
  (∀ j, (j < nCols)%nat → is_Some (Sparse.get (colWeights t) j)) →
  padTableToSize nRows nCols t = t.
Proof.
  intros Hrows Hcols Hweights. unfold padTableToSize.
  rewrite (for_upto_fixed nRows).
  - apply for_upto_fixed. intros j Hj. by apply padColWeight_noop, Hweights.
  - intros i Hi.
    destruct (lookup_lt_is_Some_2 (rows t) i) as [row Hrow]; [lia|].
    by apply (padTableRow_noop nCols t i row), (Hcols i).
Qed.

(** X1.  [padTableToSize] is idempotent, and a padding to a size that is
    not larger than one already applied is absorbed by it. *)
Theorem padTableToSize_absorbs (nRows nCols nRows' nCols' : nat) (t : Table) :
  (nRows' ≤ nRows)%nat → (nCols' ≤ nCols)%nat →
  padTableToSize nRows' nCols' (padTableToSize nRows nCols t)
  = padTableToSize nRows nCols t.
Proof.
  intros Hn Hm.
  destruct (padTableToSize_spec nRows nCols t) as (Hlen & Hrows & _ & Hcw & _).
  cbv zeta in *. apply padTableToSize_noop.
  - lia.
  - intros i row Hi Hrow. rewrite Hrows, decide_True in Hrow by lia.
    injection Hrow as <-. rewrite padded_length. lia.
  - intros j Hj. rewrite Hcw, decide_True by lia. by eexists.
Qed.

(** X1 on a jagged table padded to 3 by 3 and then to 2 by 3. *)
Lemma padTableToSize_absorbs_witness :
  let a := mkComponent "Label" (num 10) (num 20) false false in
  let t := constructor [[Some a; None]; [Some a]] in
  padTableToSize 2 3 (padTableToSize 3 3 t) = padTableToSize 3 3 t.
Proof.
  cbv zeta. apply padTableToSize_absorbs; lia.
Defined.

(** ** What a sequence of calls keeps *)

(** The calls that are not [addComponent] leave the grid, the counters and
    the anchoring alone, except [anchor], which anchors. *)
Lemma step_cases (t t' : Table) :
  step t t' →
  (∃ row col component, t' = (addComponent row col component t).2)
  ∨ (rows t' = rows t ∧ nRows t' = nRows t ∧ nCols t' = nCols t
     ∧ (element t ≠ None → element t' ≠ None)).
Proof.
  intros Hstep.
  destruct Hstep as [t row col component|t e|t rp cp|t index weight
                     |t index weight|t newVal|t newVal|t|t
                     |t log x y w h|t log].
  - left. eauto.
  - right. by split_and!.
  - right. by split_and!.
  - right. by split_and!.
  - right. by split_and!.
  - right. by destruct newVal.
  - right. by destruct newVal.
  - right. by split_and!.
  - right. by split_and!.
  - right. rewrite computeLayout_state. by split_and!.
  - right. by split_and!.
Qed.

(** The component of a cell after [addComponent], for every cell. *)
Lemma addComponent_cells (row col : nat) (component : Component) (t : Table)
    (r c : nat) :
  element t = None →
  cell (rows (addComponent row col component t).2) r c
  = if decide ((r, c) = (row, col) ∧ ¬ occupied t row col) then Some component
    else if decide (r < Nat.max row (nRows t) + 1
                    ∧ c < Nat.max col (nCols t) + 1)%nat
         then Some (default newComponent (cell (rows t) r c))
         else cell (rows t) r c.
Proof.
  intros He. destruct (decide ((r, c) = (row, col))) as [[= -> ->]|Hne].
  - rewrite addComponent_target by done.
    destruct (decide (occupied t row col)) as [Hocc|Hfree].
    + rewrite decide_False by tauto. by rewrite decide_True by lia.
    + by rewrite decide_True by tauto.
  - rewrite decide_False by tauto. by apply addComponent_cell.
Qed.

Lemma addComponent_keeps_components (row col : nat) (component : Component)
    (t : Table) (r c : nat) (x : Component) :
  cell (rows t) r c = Some x → ¬ isPlaceholder x →
  cell (rows (addComponent row col component t).2) r c = Some x.
Proof.
  intros Hcell Hreal. destruct (element t) as [e|] eqn:He.
  - rewrite addComponent_spec. by rewrite decide_True by (by rewrite He).
  - rewrite addComponent_cells by done.
    destruct (decide ((r, c) = (row, col) ∧ ¬ occupied t row col))
      as [[[= -> ->] Hfree]|_].
    + destruct Hfree. unfold occupied. by rewrite Hcell.
    + rewrite Hcell. by destruct (decide _).
Qed.

Lemma addComponent_rows_length (row col : nat) (component : Component) (t : Table) :
  (length (rows t) ≤ length (rows (addComponent row col component t).2))%nat.
Proof.
  destruct (element t) as [e|] eqn:He.
  - rewrite addComponent_spec. by rewrite decide_True by (by rewrite He).
  - destruct (addComponent_state row col component t He) as (_ & Hlen & _).
    destruct (grown_spec row col t) as (Hg & _). cbv zeta in *. lia.
Qed.

(** X2.  Along any sequence of calls of the methods of the class, a
    component that is not a placeholder stays in its cell: nothing removes
    or replaces it; and the number of rows never decreases. *)
Theorem components_are_kept (t t' : Table) :
  rtc step t t' →
  (∀ r c x, cell (rows t) r c = Some x → ¬ isPlaceholder x →
            cell (rows t') r c = Some x)
  ∧ (length (rows t) ≤ length (rows t'))%nat.
Proof.
  induction 1 as [t|t t1 t' Hstep _ (IHcells & IHlen)]; [done|].
  destruct (step_cases t t1 Hstep) as [(row & col & component & ->)
                                       |(Hrows & _)].
  - split.
    + intros r c x Hcell Hreal.
      apply IHcells; [|done]. by apply addComponent_keeps_components.
    + pose proof (addComponent_rows_length row col component t). lia.
  - rewrite Hrows in IHcells, IHlen. done.
Qed.

(** X2 on a table that is extended, laid out and extended again. *)
Lemma components_are_kept_witness :
  let a := mkComponent "Label" (num 10) (num 20) false false in
  let b := mkComponent "Plot" (num 30) (num 40) false false in
  let t := constructor [[Some a]] in
  let t1 := (addComponent 0 1 b t).2 in
  let t2 := (computeLayout 0 0 (num 100) (num 100) (t1, [])).2.1 in
  let t3 := (addComponent 0 0 b t2).2 in
  cell (rows t3) 0 0 = Some a.
Proof.
  cbv zeta.
  set (a := mkComponent "Label" (num 10) (num 20) false false).
  set (b := mkComponent "Plot" (num 30) (num 40) false false).
  set (t := constructor [[Some a]]).
  set (t1 := (addComponent 0 1 b t).2).
  set (t2 := (computeLayout 0 0 (num 100) (num 100) (t1, [])).2.1).
  set (t3 := (addComponent 0 0 b t2).2).
  assert (Hsteps : rtc step t t3).
  { eapply rtc_l; [apply (step_addComponent t 0 1 b)|].
    eapply rtc_l; [apply (step_computeLayout t1 [] 0 0 (num 100) (num 100))|].
    eapply rtc_l; [apply (step_addComponent t2 0 0 b)|]. apply rtc_refl. }
  destruct (components_are_kept t t3 Hsteps) as (Hcells & _).
  apply Hcells; [reflexivity | compute_done].
Defined.

(** X3.  Once the table is anchored its topology is frozen: along any
    sequence of calls the grid and the counters stay what they were, and
    the table stays anchored. *)
Theorem anchored_grid_is_frozen (t t' : Table) :
  element t ≠ None → rtc step t t' →
  rows t' = rows t ∧ nRows t' = nRows t ∧ nCols t' = nCols t
  ∧ element t' ≠ None.
Proof.
  intros He Hsteps. induction Hsteps as [t|t t1 t' Hstep _ IH]; [done|].
  assert (rows t1 = rows t ∧ nRows t1 = nRows t ∧ nCols t1 = nCols t
          ∧ element t1 ≠ None) as (Hrows & HnR & HnC & He1).
  { destruct (step_cases t t1 Hstep) as [(row & col & component & ->)|H].
    - rewrite addComponent_spec. by rewrite decide_True by done.
    - destruct H as (? & ? & ? & Hel). split_and!; try done. by apply Hel. }
  destruct (IH He1) as (? & ? & ? & ?). split_and!; congruence.
Qed.

(** X3 on a table that is anchored and then asked for a new cell, a new
    weight and a layout. *)
Lemma anchored_grid_is_frozen_witness :
  let a := mkComponent "Label" (num 10) (num 20) false false in
  let t := (anchor (selection 7) (constructor [[Some a]])).2 in
  let t1 := (addComponent 3 3 a t).2 in
  let t2 := (rowWeight 5 (num 2) t1).2 in
  let t3 := (computeLayout 0 0 (num 100) (num 100) (t2, [])).2.1 in
  rows t3 = [[a]].
Proof.
  cbv zeta.
  set (a := mkComponent "Label" (num 10) (num 20) false false).
  set (t := (anchor (selection 7) (constructor [[Some a]])).2).
  set (t1 := (addComponent 3 3 a t).2).
  set (t2 := (rowWeight 5 (num 2) t1).2).
  set (t3 := (computeLayout 0 0 (num 100) (num 100) (t2, [])).2.1).
  assert (Hsteps : rtc step t t3).
  { eapply rtc_l; [apply (step_addComponent t 3 3 a)|].
    eapply rtc_l; [apply (step_rowWeight t1 5 (num 2))|].
    eapply rtc_l; [apply (step_computeLayout t2 [] 0 0 (num 100) (num 100))|].
    apply rtc_refl. }
  destruct (anchored_grid_is_frozen t t3) as (Hrows & _); [done|done|].
  by rewrite Hrows.
Defined.

(** ** Layouts compared *)

(** X5.  A layout can be repeated: a second call with the same arguments on
    the table the first call left, whether that call returned or threw, has
    the same outcome, makes the same invocations and leaves the table as it
    found it. *)
Theorem computeLayout_repeatable (x y w h : number) (t : Table)
    (log : list LayoutCall) :
  let r := computeLayout x y w h (t, log) in
  computeLayout x y w h (r.2.1, log) = r.
Proof.
  cbv zeta. rewrite computeLayout_state, !computeLayout_spec. cbv zeta.
  change (totalColMinimum (refreshed t)) with (totalColMinimum t).
  change (totalRowMinimum (refreshed t)) with (totalRowMinimum t).
  change (refreshed (refreshed t)) with (refreshed t).
  destruct (decide _); [done|].
  change (rowWeights (refreshed t)) with (rowWeights t).
  change (colWeights (refreshed t)) with (colWeights t).
  change (rows (refreshed t)) with (rows t).
  destruct (calcComponentWeights (rowWeights t) _ _); [|done].
  by destruct (calcComponentWeights (colWeights t) _ _).
Qed.

(** ** The allocator again *)

Lemma d3_sum_nonneg (weights : list value) :
  (∀ i w, Sparse.get weights i = Some w → 0 ≤ w) → 0 ≤ d3.sum weights.
Proof.
  induction weights as [|[x|] weights IH]; intros Hall.
  - by rewrite d3_sum_nil.
  - rewrite d3_sum_cons_Some. apply Qcplus_nonneg_nonneg.
    + by apply (Hall 0%nat).
    + apply IH. intros i w. apply (Hall (S i)).
  - rewrite d3_sum_cons_None. apply IH. intros i w. apply (Hall (S i)).
Qed.

(** With free space and weights that are not negative, no share is
    negative. *)
Lemma calcProportionalSpace_nonneg (weights : list value) (freeSpace : number) :
  0 ≤ freeSpace →
  (∀ i w, Sparse.get weights i = Some w → 0 ≤ w) →
  ∀ i s, Sparse.get (calcProportionalSpace weights freeSpace) i = Some s →
         0 ≤ s.
Proof.
  intros Hfree Hall i s. unfold calcProportionalSpace, Sparse.get.
  pose proof (d3_sum_nonneg weights Hall) as Hsum.
  destruct (decide (d3.sum weights = 0)) as [Hz|Hnz];
    rewrite Sparse_map_lookup;
    destruct (weights !! i) as [[w|]|] eqn:Hi; simpl; try done;
    intros [= <-].
  - apply lookup_lt_Some in Hi.
    apply Qcmult_nonneg_nonneg; [done|].
    apply Qclt_le_weak, Qcinv_pos. unfold num.
    rewrite <- Z2Qc_inj_0.
    apply (proj1 (Z2Qc_inj_lt 0 (Z.of_nat (length weights)))). lia.
  - apply Qcmult_nonneg_nonneg.
    + apply Qcmult_nonneg_nonneg; [done|].
      apply (Hall i). unfold Sparse.get. by rewrite Hi.
    + apply Qclt_le_weak, Qcinv_pos.
      apply Qcle_lt_or_eq in Hsum as [Hlt|Heq]; [done|]. by destruct Hnz.
Qed.

(** ** What the children are given *)

(** A layout that returns, unfolded: the space was sufficient, the weights
    resolved, the caches were recomputed and the children were laid out. *)
Lemma computeLayout_Return (x y w h : number) (t t' : Table)
    (log log' : list LayoutCall) :
  computeLayout x y w h (t, log) = (Return tt, (t', log')) →
  ∃ rowWeights' colWeights',
    calcComponentWeights (rowWeights t) (rows t) cIsFixedHeight
    = Return rowWeights'
    ∧ calcComponentWeights (colWeights t) (d3.transpose (rows t)) cIsFixedWidth
      = Return colWeights'
    ∧ totalColMinimum t ≤ w ∧ totalRowMinimum t ≤ h
    ∧ t' = refreshed t
    ∧ log' = log ++ expectedCalls t
               (λ c, vadd (Sparse.get (calcProportionalSpace colWeights'
                                         (w - totalColMinimum t)) c)
                          (Sparse.get (colMins t) c))
               (λ r, vadd (Sparse.get (calcProportionalSpace rowWeights'
                                         (h - totalRowMinimum t)) r)
                          (Sparse.get (rowMins t) r)).
Proof.
  rewrite computeLayout_spec. cbv zeta.
  destruct (decide _) as [|Hfit]; [done|].
  destruct (calcComponentWeights (rowWeights t) (rows t) cIsFixedHeight)
    as [rowWeights'|]; [|done].
  destruct (calcComponentWeights (colWeights t) (d3.transpose (rows t))
              cIsFixedWidth) as [colWeights'|]; [|done].
  intros [= <- <-]. exists rowWeights', colWeights'.
  split_and!; try done.
  - apply Qcnot_lt_le. tauto.
  - apply Qcnot_lt_le. tauto.
  - rewrite layoutChildren_spec. f_equal.
    change (expectedCalls (refreshed t)) with (expectedCalls t).
    apply expectedCalls_ext; intros k; apply sizes_get.
Qed.

(** Every expected invocation is the invocation of a cell. *)
Lemma expectedCalls_elem (t : Table) (w h : nat → value) (call : LayoutCall) :
  call ∈ expectedCalls t w h →
  ∃ r c component,
    cell (rows t) r c = Some component
    ∧ call = mkLayoutCall component (offsetOf w (colPadding t) c)
               (offsetOf h (rowPadding t) r) (w c) (h r).
Proof.
  unfold expectedCalls. intros Hin.
  apply list_elem_of_In, in_concat in Hin as (calls & Hcalls & Hin).
  apply list_elem_of_In, elem_of_lookup_imap_1 in Hcalls
    as (r & row & -> & Hrow).
  apply list_elem_of_In, elem_of_lookup_imap_1 in Hin
    as (c & component & -> & Hcell).
  exists r, c, component. split; [|done]. unfold cell. by rewrite Hrow.
Qed.

(** A resolved weight is the explicit weight of its cell, or 0, or 1. *)
Lemma calcComponentWeights_values (setWeights : list (option (option number)))
    (groups : list (list Component)) (fixity : Component → bool)
    (ws : list value) (i : nat) (w : number) :
  calcComponentWeights setWeights groups fixity = Return ws →
  Sparse.get ws i = Some w →
  Sparse.get setWeights i = Some (Some w) ∨ w = 0 ∨ w = 1.
Proof.
  unfold calcComponentWeights, map_throwing_sparse. intros Hret Hw.
  apply map_throwing_Return in Hret as (Hlen & Hall).
  unfold Sparse.get in *.
  destruct (ws !! i) as [v|] eqn:Hv; [|done]. simpl in Hw. subst v.
  destruct (lookup_lt_is_Some_2 setWeights i) as [slot Hslot].
  { apply lookup_lt_Some in Hv. lia. }
  destruct (Hall i slot Hslot) as (y & Hy & Hws).
  rewrite Hv in Hws. injection Hws as <-. rewrite Hslot.
  destruct slot as [[w0|]|]; cbv beta iota in Hy.
  - cbn [componentWeight obind] in Hy. injection Hy as ->. by left.
  - change (0 + i)%nat with i in Hy. rewrite componentWeight_unset in Hy.
    destruct (groups !! i) as [group|]; [|done].
    destruct (decide (group = [])); [done|].
    cbn [obind] in Hy. injection Hy as Hy.
    right. destruct (forallb fixity group); [by left|by right].
  - done.
Qed.

Lemma resolved_weights_nonneg (setWeights : list (option (option number)))
    (groups : list (list Component)) (fixity : Component → bool)
    (ws : list value) :
  nonnegative setWeights →
  calcComponentWeights setWeights groups fixity = Return ws →
  ∀ i w, Sparse.get ws i = Some w → 0 ≤ w.
Proof.
  intros Hnonneg Hret i w Hw.
  destruct (calcComponentWeights_values _ _ _ _ i w Hret Hw) as [Hset|[->| ->]].
  - by apply (Hnonneg i).
  - done.
  - done.
Qed.

Lemma le_add_nonneg (s m : number) : 0 ≤ s → m ≤ s + m.
Proof.
  intros Hs. apply (Qcplus_le_mono_r 0 s m) in Hs.
  by replace (0 + m) with m in Hs by ring.
Qed.

(** X7.  When no explicit weight is negative, a layout that returns gives
    every child at least its minimum size: whenever the width handed to a
    child is a number it is at least the [colMinimum()] of the child, and
    the height at least its [rowMinimum()]. *)
Theorem computeLayout_respects_minimums (x y w h : number) (t t' : Table)
    (log log' : list LayoutCall) :
  nonnegative (rowWeights t) → nonnegative (colWeights t) →
  computeLayout x y w h (t, log) = (Return tt, (t', log')) →
  ∃ calls, log' = log ++ calls
    ∧ ∀ call, call ∈ calls →
        (∀ width, callWidth call = Some width →
                  cColMinimum (callee call) ≤ width)
        ∧ (∀ height, callHeight call = Some height →
                     cRowMinimum (callee call) ≤ height).
Proof.
  intros Hrw Hcw Hret.
  apply computeLayout_Return in Hret
    as (rowWeights' & colWeights' & Hrows & Hcols & Hw & Hh & _ & ->).
  eexists. split; [reflexivity|]. intros call Hcall.
  apply expectedCalls_elem in Hcall as (r & c & component & Hcell & ->).
  cbn [callee callWidth callHeight].
  unfold cell in Hcell.
  destruct (rows t !! r) as [row|] eqn:Hrow; [|done]. simpl in Hcell.
  split.
  - intros width Hwidth.
    destruct (Sparse.get (calcProportionalSpace colWeights'
                            (w - totalColMinimum t)) c) as [s|] eqn:Hs;
      [|done].
    destruct (Sparse.get (colMins t) c) as [m|] eqn:Hm; [|done].
    injection Hwidth as <-.
    eapply Qcle_trans; [|apply le_add_nonneg].
    + unfold Sparse.get, colMins in Hm. rewrite list_lookup_fmap in Hm.
      destruct (d3.transpose (rows t) !! c) as [col|] eqn:Hcol; [|done].
      simpl in Hm.
      pose proof (d3_max_number_spec col cColMinimum) as Hmax.
      rewrite Hm in Hmax. destruct Hmax as (_ & Hmax). apply Hmax.
      apply list_elem_of_fmap_2.
      destruct (transpose_lookup _ _ _ Hcol) as (_ & Hcells).
      apply list_elem_of_lookup. exists r. rewrite Hcells, Hrow. done.
    + eapply calcProportionalSpace_nonneg; [| |exact Hs].
      * apply (Qcplus_le_mono_r _ _ (totalColMinimum t)).
        by replace (w - totalColMinimum t + totalColMinimum t) with w by ring;
           replace (0 + totalColMinimum t) with (totalColMinimum t) by ring.
      * apply (resolved_weights_nonneg _ _ _ _ Hcw Hcols).
  - intros height Hheight.
    destruct (Sparse.get (calcProportionalSpace rowWeights'
                            (h - totalRowMinimum t)) r) as [s|] eqn:Hs;
      [|done].
    destruct (Sparse.get (rowMins t) r) as [m|] eqn:Hm; [|done].
    injection Hheight as <-.
    eapply Qcle_trans; [|apply le_add_nonneg].
    + unfold Sparse.get, rowMins in Hm. rewrite list_lookup_fmap, Hrow in Hm.
      simpl in Hm.
      pose proof (d3_max_number_spec row cRowMinimum) as Hmax.
      rewrite Hm in Hmax. destruct Hmax as (_ & Hmax). apply Hmax.
      apply list_elem_of_fmap_2, list_elem_of_lookup. eauto.
    + eapply calcProportionalSpace_nonneg; [| |exact Hs].
      * apply (Qcplus_le_mono_r _ _ (totalRowMinimum t)).
        by replace (h - totalRowMinimum t + totalRowMinimum t) with h by ring;
           replace (0 + totalRowMinimum t) with (totalRowMinimum t) by ring.
      * apply (resolved_weights_nonneg _ _ _ _ Hrw Hrows).
Qed.

(** X7 on the layout of four flexible components in 60 by 60. *)
Lemma computeLayout_respects_minimums_witness :
  let a := mkComponent "A" (num 10) (num 10) false false in
  let b := mkComponent "B" (num 10) (num 20) false false in
  let c := mkComponent "C" (num 30) (num 10) false false in
  let d := mkComponent "D" (num 30) (num 20) false false in
  let t := constructor [[Some a; Some b]; [Some c; Some d]] in
  let r := computeLayout 0 0 (num 60) (num 60) (t, []) in
  ∃ calls, r.2.2 = [] ++ calls
    ∧ ∀ call, call ∈ calls →
        (∀ width, callWidth call = Some width →
                  cColMinimum (callee call) ≤ width)
        ∧ (∀ height, callHeight call = Some height →
                     cRowMinimum (callee call) ≤ height).
Proof.
  cbv zeta.
  set (t := constructor _).
  set (r := computeLayout 0 0 (num 60) (num 60) (t, [])).
  apply (computeLayout_respects_minimums 0 0 (num 60) (num 60) t r.2.1).
  - intros [|[|i]] w Hw; done.
  - intros [|[|i]] w Hw; done.
  - compute_done.
Defined.

(** ** Arrays without hole *)

Lemma d3_sum_const_dense (c : number) (array : list value) :
  Forall is_Some array →
  d3.sum (Sparse.map (λ _, c) array) = num (Z.of_nat (length array)) * c.
Proof.
  induction 1 as [|v array [x ->] _ IH].
  - change (0 = Qc_of_Z 0 * c). rewrite Z2Qc_inj_0. ring.
  - change (d3.sum (Some c :: Sparse.map (λ _, c) array)
            = num (Z.of_nat (S (length array))) * c).
    rewrite d3_sum_cons_Some, num_succ, IH. ring.
Qed.

(** In exact arithmetic the shares of weights without hole, and at least
    one of them, sum to the free space.  In binary64 every share is rounded
    and the sum can miss the free space. *)
Lemma calcProportionalSpace_sum (weights : list value) (freeSpace : number) :
  Forall is_Some weights → weights ≠ [] →
  d3.sum (calcProportionalSpace weights freeSpace) = freeSpace.
Proof.
  intros Hdense Hne. unfold calcProportionalSpace.
  destruct (decide (d3.sum weights = 0)) as [Hz|Hnz].
  - rewrite d3_sum_const_dense by done.
    apply Qcmult_div_r, num_pos_ne_0. by destruct weights.
  - rewrite d3_sum_scaled. by apply Qcdiv_mult_l.
Qed.

(** Weights without hole resolve to weights without hole. *)
Lemma calcComponentWeights_dense (setWeights : list (option (option number)))
    (groups : list (list Component)) (fixity : Component → bool)
    (ws : list value) :
  Forall is_Some setWeights →
  calcComponentWeights setWeights groups fixity = Return ws →
  Forall is_Some ws ∧ length ws = length setWeights.
Proof.
  unfold calcComponentWeights, map_throwing_sparse. intros Hdense Hret.
  apply map_throwing_Return in Hret as (Hlen & Hall).
  split; [|done]. apply Forall_lookup. intros i v Hv.
  destruct (lookup_lt_is_Some_2 setWeights i) as [slot Hslot].
  { apply lookup_lt_Some in Hv. lia. }
  destruct (Hall i slot Hslot) as (y & Hy & Hws).
  rewrite Hv in Hws. injection Hws as <-.
  rewrite Forall_lookup in Hdense.
  destruct (Hdense i slot Hslot) as [w ->]. cbv beta iota in Hy.
  destruct (componentWeight groups fixity w (0 + i)); [|done].
  cbn [obind] in Hy. injection Hy as <-. by eexists.
Qed.

(** ** The arrays of weights follow the grid *)

Lemma Sparse_store_length {A} (arr : list (option A)) (i : nat) (v : A) :
  length (Sparse.store arr i v) = Nat.max (length arr) (i + 1).
Proof.
  unfold Sparse.store. destruct (decide (i < length arr)%nat).
  - rewrite length_insert. lia.
  - rewrite !length_app, length_replicate. simpl. lia.
Qed.

(** The length of [rowWeights] through the first loop of [padTableToSize]:
    it grows when a row is created. *)
Lemma padTableRow_loop_weights (nCols : nat) (t : Table) (k : nat) :
  length (rowWeights (Array.for_upto k (padTableRow nCols) t))
  = if decide (length (rows t) < k)%nat
    then Nat.max (length (rowWeights t)) k
    else length (rowWeights t).
Proof.
  induction k as [|k IH].
  - by rewrite decide_False by lia.
  - rewrite for_upto_S.
    destruct (padTableRow_loop nCols t k) as (_ & Hrows & _). cbv zeta in Hrows.
    set (tk := Array.for_upto k (padTableRow nCols) t) in *. clearbody tk.
    pose proof (Hrows k) as Hk. rewrite decide_False in Hk by lia.
    unfold padTableRow. rewrite Hk.
    destruct (rows t !! k) as [row|] eqn:Hrow.
    + apply lookup_lt_Some in Hrow. rewrite Hk. cbn [rowWeights set_rows].
      rewrite IH. by rewrite !decide_False by lia.
    + apply lookup_ge_None_1 in Hrow.
      assert (length (rowWeights
                (set_rowWeights (Sparse.store (rowWeights tk) k None)
                   (set_rows (Array.store (rows tk) k []) tk)))
              = Nat.max (length (rowWeights tk)) (k + 1)) as Hlen
        by apply Sparse_store_length.
      rewrite decide_True by lia.
      destruct (rows (set_rowWeights _ _) !! k);
        cbn [rowWeights set_rows]; rewrite Hlen, IH;
        destruct (decide (length (rows t) < k)%nat); lia.
Qed.

(** The length of [colWeights] through the second loop. *)
Lemma padColWeight_loop_length (t : Table) (k : nat) :
  length (colWeights (Array.for_upto k padColWeight t))
  = Nat.max (length (colWeights t)) k.
Proof.
  induction k as [|k IH].
  { change (Array.for_upto 0 padColWeight t) with t. lia. }
  rewrite for_upto_S.
  set (tk := Array.for_upto k padColWeight t) in *. clearbody tk.
  unfold padColWeight.
  destruct (Sparse.get (colWeights tk) k) as [w|] eqn:Hget.
  - unfold Sparse.get in Hget.
    destruct (colWeights tk !! k) as [v|] eqn:Hv; [|done].
    apply lookup_lt_Some in Hv. lia.
  - cbn [colWeights set_colWeights]. rewrite Sparse_store_length. lia.
Qed.

Lemma padTableToSize_weights_length (nRows nCols : nat) (t : Table) :
  length (rowWeights (padTableToSize nRows nCols t))
  = (if decide (length (rows t) < nRows)%nat
     then Nat.max (length (rowWeights t)) nRows
     else length (rowWeights t))
  ∧ length (colWeights (padTableToSize nRows nCols t))
    = Nat.max (length (colWeights t)) nCols.
Proof.
  unfold padTableToSize.
  destruct (padTableRow_loop nCols t nRows) as (_ & _ & _ & Hrest1).
  pose proof (padTableRow_loop_weights nCols t nRows) as Hrw.
  set (t1 := Array.for_upto nRows (padTableRow nCols) t) in *. clearbody t1.
  destruct (padColWeight_loop t1 nCols) as (_ & Hrest2).
  pose proof (padColWeight_loop_length t1 nCols) as Hcw.
  set (t2 := Array.for_upto nCols padColWeight t1) in *. clearbody t2.
  cbv zeta in *.
  assert (rowWeights t2 = rowWeights t1) as -> by (rewrite Hrest2; by destruct t1).
  assert (colWeights t1 = colWeights t) as <- by (rewrite Hrest1; by destruct t).
  done.
Qed.

Lemma dense_get {A} (arr : list (option A)) :
  Forall is_Some arr
  ↔ ∀ i, (i < length arr)%nat → is_Some (Sparse.get arr i).
Proof.
  unfold Sparse.get. rewrite Forall_lookup. split.
  - intros Hall i Hi. destruct (lookup_lt_is_Some_2 arr i Hi) as [v Hv].
    rewrite Hv. by apply (Hall i).
  - intros Hall i v Hv. specialize (Hall i (lookup_lt_Some _ _ _ Hv)).
    by rewrite Hv in Hall.
Qed.

Lemma rectangular_transpose_length (m : nat) (grid : list (list Component)) :
  grid ≠ [] → rectangular m grid → length (d3.transpose grid) = m.
Proof.
  intros Hne Hrect. rewrite transpose_length.
  destruct (proj2 (min_length_spec grid) Hne) as (row & Hrow & <-).
  unfold rectangular in Hrect. rewrite Forall_forall in Hrect. by apply Hrect.
Qed.

Lemma constructor_aligned (input : list (list (option Component))) :
  aligned (constructor input).
Proof.
  unfold aligned, constructor. cbn [rows rowWeights colWeights].
  split_and!.
  - by rewrite length_fmap.
  - apply Forall_fmap, Forall_true. intros row. by eexists.
  - by rewrite length_fmap.
  - apply Forall_fmap, Forall_true. intros col. by eexists.
Qed.

Lemma addComponent_aligned (row col : nat) (component : Component) (t : Table) :
  counters_cover t → aligned t →
  aligned (addComponent row col component t).2.
Proof.
  intros Hcov Hal. destruct (element t) as [e|] eqn:He.
  { rewrite addComponent_spec. by rewrite decide_True by (by rewrite He). }
  destruct Hal as (HrwLen & HrwDense & HcwLen & HcwDense).
  destruct (addComponent_rectangular row col component t Hcov He)
    as (Hlen & Hrect & _).
  destruct (addComponent_state row col component t He)
    as (_ & _ & Hrw & Hcw & _).
  destruct (grown_spec row col t) as (_ & _ & Hgrw & Hgcw & _).
  destruct (padTableToSize_weights_length (Nat.max row (nRows t) + 1)
              (Nat.max col (nCols t) + 1)
              (set_nCols (Nat.max col (nCols t))
                 (set_nRows (Nat.max row (nRows t)) t))) as (HlenR & HlenC).
  cbn [rows rowWeights colWeights set_nCols set_nRows] in HlenR, HlenC.
  fold (grown row col t) in HlenR, HlenC. cbv zeta in *.
  set (t' := (addComponent row col component t).2) in *.
  destruct Hcov as (HcovR & HcovC).
  assert (Hmin : (length (colWeights t) ≤ Nat.max col (nCols t) + 1)%nat).
  { rewrite HcwLen, transpose_length.
    destruct (rows t) as [|row0 grid] eqn:Hrows;
      [unfold d3.min_length; simpl; lia|].
    pose proof (proj1 (min_length_spec (row0 :: grid)) row0
                  (list_elem_of_here _ _)) as Hle.
    apply Forall_cons in HcovC as (HcovC & _). simpl in HcovC. lia. }
  split_and!.
  - rewrite Hrw, HlenR, Hlen. destruct (decide _); lia.
  - apply dense_get. intros i Hi. rewrite Hrw, Hgrw.
    destruct (decide (length (rows t) ≤ i < Nat.max row (nRows t) + 1)%nat)
      as [Hnew|Hold]; [by eexists|].
    apply (proj1 (dense_get _) HrwDense).
    rewrite Hrw, HlenR in Hi.
    destruct (decide (length (rows t) < Nat.max row (nRows t) + 1)%nat); lia.
  - rewrite Hcw, HlenC.
    rewrite (rectangular_transpose_length (Nat.max col (nCols t) + 1) (rows t')).
    + lia.
    + intros Hnil. rewrite Hnil in Hlen. simpl in Hlen. lia.
    + exact Hrect.
  - apply dense_get. intros j Hj. rewrite Hcw, Hgcw.
    rewrite Hcw, HlenC in Hj. rewrite decide_True by lia. by eexists.
Qed.

Lemma store_in_range_dense {A} (arr : list (option A)) (i : nat) (v : A) :
  (i < length arr)%nat → Forall is_Some arr →
  length (Sparse.store arr i v) = length arr
  ∧ Forall is_Some (Sparse.store arr i v).
Proof.
  intros Hi Hdense. unfold Sparse.store. rewrite decide_True by done.
  split; [apply length_insert|]. apply Forall_insert; [done|by eexists].
Qed.

(** X9.  The arrays of weights follow the grid: the constructor makes one
    weight cell for every row and one for every column of the transposed
    grid, without hole, and this is kept by [addComponent], whether it
    returns or throws, by a weight set on a row or a column that exists, by
    [padding] and by [computeLayout]. *)
Theorem weights_follow_grid :
  (∀ input, aligned (constructor input))
  ∧ (∀ t row col component,
       counters_cover t → aligned t →
       aligned (addComponent row col component t).2)
  ∧ (∀ t index weight,
       aligned t → (index < length (rows t))%nat →
       aligned (rowWeight index weight t).2)
  ∧ (∀ t index weight,
       aligned t → (index < length (d3.transpose (rows t)))%nat →
       aligned (colWeight index weight t).2)
  ∧ (∀ t rp cp, aligned t → aligned (padding rp cp t).2)
  ∧ (∀ t log x y w h,
       aligned t → aligned (computeLayout x y w h (t, log)).2.1).
Proof.
  split_and!.
  - apply constructor_aligned.
  - intros t row col component. apply addComponent_aligned.
  - intros t index weight (HrwLen & HrwDense & Hcw) Hindex.
    destruct (store_in_range_dense (rowWeights t) index (Some weight))
      as (Hlen & Hdense); [lia|done|].
    unfold aligned, rowWeight, modify.
    cbn [snd rows rowWeights colWeights set_rowWeights].
    split_and!; [congruence|done|apply Hcw..].
  - intros t index weight (Hrw1 & Hrw2 & HcwLen & HcwDense) Hindex.
    destruct (store_in_range_dense (colWeights t) index (Some weight))
      as (Hlen & Hdense); [lia|done|].
    unfold aligned, colWeight, modify.
    cbn [snd rows rowWeights colWeights set_colWeights].
    split_and!; [done|done|congruence|done].
  - intros t rp cp Hal. exact Hal.
  - intros t log x y w h Hal. rewrite computeLayout_state. exact Hal.
Qed.

(** X9 on a jagged table extended by a cell. *)
Lemma weights_follow_grid_witness :
  let a := mkComponent "Label" (num 10) (num 20) false false in
  let t := constructor [[Some a; None]; [Some a]] in
  aligned (addComponent 2 3 a t).2.
Proof.
  intros a t.
  destruct weights_follow_grid as (Hc & Hadd & _).
  apply Hadd; [compute_done|apply Hc].
Defined.

(** ** [render] *)

Lemma render_row (row : list Component) (index : nat) (log : list Component) :
  Array.forEach_from (λ log (component : Component) (colIndex : nat),
      log ++ [component]) row index log
  = log ++ row.
Proof.
  revert index log. induction row as [|c row IH]; intros index log; simpl.
  - by rewrite app_nil_r.
  - rewrite IH. by rewrite <- app_assoc.
Qed.

Lemma render_rows (grid : list (list Component)) (index : nat)
    (log : list Component) :
  Array.forEach_from (λ log (row : list Component) (rowIndex : nat),
      Array.forEach (λ log (component : Component) (colIndex : nat),
        log ++ [component]) row log) grid index log
  = log ++ concat grid.
Proof.
  revert index log. induction grid as [|row grid IH]; intros index log; simpl.
  - by rewrite app_nil_r.
  - unfold Array.forEach at 2. rewrite render_row, IH. by rewrite <- app_assoc.
Qed.

(** The components of the expected invocations are the cells of the grid
    in reading order. *)
Lemma callee_imap (f : nat → Component → LayoutCall) (row : list Component) :
  (∀ c component, callee (f c component) = component) →
  callee <$> imap f row = row.
Proof.
  intros Hf. apply list_eq. intros c.
  rewrite list_lookup_fmap, list_lookup_imap.
  destruct (row !! c) as [component|]; [|done]. simpl. by rewrite Hf.
Qed.

Lemma callee_concat_imap (f : nat → nat → Component → LayoutCall)
    (grid : list (list Component)) :
  (∀ r c component, callee (f r c component) = component) →
  callee <$> concat (imap (λ r row, imap (f r) row) grid) = concat grid.
Proof.
  revert f. induction grid as [|row grid IH]; intros f Hf; [done|].
  cbn [imap concat]. rewrite fmap_app, callee_imap by apply Hf.
  f_equal. apply (IH (λ r, f (S r))). intros r c component. apply Hf.
Qed.

(** X10.  [render] calls [render] once on the component of every cell,
    placeholders included, row by row and left to right, and leaves the
    table as it is; the children a layout that returns has laid out are the
    same, in the same order. *)
Theorem render_visits_cells (t : Table) (rendered : list Component) :
  render (t, rendered) = (Return tt, (t, rendered ++ concat (rows t)))
  ∧ ∀ x y w h log t' log',
      computeLayout x y w h (t, log) = (Return tt, (t', log')) →
      ∃ calls, log' = log ++ calls
        ∧ (render (t', rendered)).2.2 = rendered ++ (callee <$> calls).
Proof.
  assert (Hrender : ∀ t0, render (t0, rendered)
                    = (Return tt, (t0, rendered ++ concat (rows t0)))).
  { intros t0. unfold render, modify. cbn [fst snd].
    unfold Array.forEach at 1. by rewrite render_rows. }
  split; [apply Hrender|].
  intros x y w h log t' log' Hret.
  apply computeLayout_Return in Hret
    as (rowWeights' & colWeights' & _ & _ & _ & _ & -> & ->).
  eexists. split; [reflexivity|].
  rewrite Hrender. cbn [snd]. f_equal.
  change (rows (refreshed t)) with (rows t).
  unfold expectedCalls. symmetry.
  by apply (callee_concat_imap
              (λ r c component, mkLayoutCall component _ _ _ _)).
Qed.

(** X10 on a table of two rows. *)
Lemma render_visits_cells_witness :
  let a := mkComponent "Label" (num 10) (num 20) false false in
  let b := mkComponent "Plot" (num 30) (num 40) false false in
  let t := constructor [[Some a; None]; [Some b; Some a]] in
  let r := computeLayout 0 0 (num 100) (num 100) (t, []) in
  ∃ calls, r.2.2 = [] ++ calls
    ∧ (render (r.2.1, [])).2.2 = [] ++ (callee <$> calls).
Proof.
  intros a b t r.
  destruct (render_visits_cells t []) as (_ & H).
  apply (H 0 0 (num 100) (num 100) [] r.2.1 r.2.2). compute_done.
Defined.

(** ** Fixed width on a rectangular grid *)

(** The conjunction over the transposed grid is the conjunction over the
    grid when every row has the same length. *)
Lemma forallb_transpose (f : Component → bool) (m : nat)
    (grid : list (list Component)) :
  rectangular m grid →
  forallb (forallb f) (d3.transpose grid) = forallb (forallb f) grid.
Proof.
  intros Hrect. apply eq_true_iff_eq.
  rewrite !forallb_all. split.
  - intros Hcols row Hrow. apply forallb_all. intros x Hx.
    apply list_elem_of_lookup in Hrow as (i & Hi).
    apply list_elem_of_lookup in Hx as (j & Hj).
    assert (Hlt : (j < length (d3.transpose grid))%nat).
    { rewrite (rectangular_transpose_length m grid).
      - unfold rectangular in Hrect. rewrite Forall_lookup in Hrect.
        rewrite <- (Hrect i row Hi). by apply lookup_lt_Some in Hj.
      - intros ->. done.
      - done. }
    destruct (lookup_lt_is_Some_2 _ _ Hlt) as [col Hcol].
    destruct (transpose_lookup _ _ _ Hcol) as (_ & Hcells).
    specialize (Hcols col (list_elem_of_lookup_2 _ _ _ Hcol)).
    rewrite forallb_all in Hcols. apply Hcols.
    apply list_elem_of_lookup. exists i. by rewrite Hcells, Hi.
  - intros Hrows col Hcol. apply forallb_all. intros x Hx.
    apply list_elem_of_lookup in Hcol as (j & Hj).
    apply list_elem_of_lookup in Hx as (i & Hi).
    destruct (transpose_lookup _ _ _ Hj) as (_ & Hcells).
    rewrite Hcells in Hi.
    destruct (grid !! i) as [row|] eqn:Hrow; [|done]. simpl in Hi.
    specialize (Hrows row (list_elem_of_lookup_2 _ _ _ Hrow)).
    rewrite forallb_all in Hrows. apply Hrows.
    by apply list_elem_of_lookup_2 in Hi.
Qed.

(** The conjunction over a grid is true exactly when it is for every
    cell. *)
Lemma forallb_cells (f : Component → bool) (grid : list (list Component)) :
  forallb (forallb f) grid = true
  ↔ ∀ r c x, cell grid r c = Some x → f x = true.
Proof.
  split.
  - intros Hall r c x Hcell. unfold cell in Hcell.
    destruct (grid !! r) as [row|] eqn:Hrow; [|done]. simpl in Hcell.
    rewrite forallb_all in Hall.
    specialize (Hall row (list_elem_of_lookup_2 _ _ _ Hrow)).
    rewrite forallb_all in Hall. apply Hall.
    by apply list_elem_of_lookup_2 in Hcell.
  - intros Hall. apply forallb_all. intros row Hrow.
    apply forallb_all. intros x Hx.
    apply list_elem_of_lookup in Hrow as (r & Hr).
    apply list_elem_of_lookup in Hx as (c & Hc).
    apply (Hall r c). unfold cell. by rewrite Hr.
Qed.

(** X11.  On a grid whose rows all have the same length, when
    [isFixedWidth()] returns it returns true exactly when every component
    of the grid reports a fixed width, and when [isFixedHeight()] returns
    it returns true exactly when every component reports a fixed height:
    the conjunction over the transposed grid is the conjunction over all
    the cells. *)
Theorem isFixedWidth_all_cells (t : Table) (m : nat) (b : bool) :
  rectangular m (rows t) →
  ((isFixedWidth t).1 = Return b →
     (b = true
      ↔ ∀ r c x, cell (rows t) r c = Some x → cIsFixedWidth x = true))
  ∧ ((isFixedHeight t).1 = Return b →
       (b = true
        ↔ ∀ r c x, cell (rows t) r c = Some x → cIsFixedHeight x = true)).
Proof.
  intros Hrect. split.
  - unfold isFixedWidth, bind, get, liftO. cbn [fst].
    rewrite fixedSpace_spec.
    destruct (decide _) as [_|_]; [|done]. intros [= <-].
    rewrite (forallb_transpose _ m) by done. apply forallb_cells.
  - unfold isFixedHeight, bind, get, liftO. cbn [fst].
    rewrite fixedSpace_spec.
    destruct (decide _) as [_|_]; [|done]. intros [= <-].
    apply forallb_cells.
Qed.

(** X11 on a table of two rows, one of whose components is not fixed:
    [isFixedWidth()] returns false. *)
Lemma isFixedWidth_all_cells_witness :
  let a := mkComponent "Label" (num 10) (num 20) true true in
  let b := mkComponent "Plot" (num 30) (num 40) false false in
  let t := constructor [[Some a; None]; [Some b; Some a]] in
  (isFixedWidth t).1 = Return false
  ∧ ¬ ∀ r c x, cell (rows t) r c = Some x → cIsFixedWidth x = true.
Proof.
  intros a b t.
  assert (Hret : (isFixedWidth t).1 = Return false) by compute_done.
  split; [exact Hret|].
  destruct (isFixedWidth_all_cells t 2 false) as (Hwidth & _);
    [compute_done|].
  intros Hall. by apply (Hwidth Hret) in Hall.
Defined.

(** ** The weight setters and the resolution of weights *)

(** A write into an array with holes, cell by cell, holes told from the
    cells past the end. *)
Lemma Sparse_store_lookup {A} (arr : list (option A)) (i j : nat) (v : A) :
  Sparse.store arr i v !! j
  = if decide (j = i) then Some (Some v)
    else if decide (j < length arr)%nat then arr !! j
    else if decide (j < i)%nat then Some None else None.
Proof.
  unfold Sparse.store.
  destruct (decide (i < length arr)%nat) as [Hi|Hi].
  - destruct (decide (j = i)) as [->|Hne].
    + by rewrite list_lookup_insert_eq.
    + rewrite list_lookup_insert_ne by done.
      destruct (decide (j < length arr)%nat) as [|Hj]; [done|].
      rewrite lookup_ge_None_2 by lia.
      by rewrite decide_False by lia.
  - destruct (decide (j = i)) as [->|Hne].
    + rewrite lookup_app_r by lia.
      rewrite lookup_app_r by (rewrite length_replicate; lia).
      rewrite length_replicate.
      by replace (i - length arr - (i - length arr))%nat with 0%nat by lia.
    + destruct (decide (j < length arr)%nat) as [Hj|Hj].
      * by rewrite lookup_app_l.
      * rewrite lookup_app_r by lia.
        destruct (decide (j < i)%nat) as [Hlt|Hge].
        -- rewrite lookup_app_l by (rewrite length_replicate; lia).
           rewrite lookup_replicate_2; [done|lia].
        -- apply lookup_ge_None_2.
           rewrite length_app, length_replicate. simpl. lia.
Qed.

(** A resolution that returns still returns once an explicit weight is
    stored at [i]: [i] resolves to the weight stored and the other cells
    resolve as they did. *)
Lemma store_resolution (setWeights : list (option (option number)))
    (groups : list (list Component)) (fixity : Component → bool)
    (i : nat) (w : number) (ws0 : list value) :
  calcComponentWeights setWeights groups fixity = Return ws0 →
  calcComponentWeights (Sparse.store setWeights i (Some w)) groups fixity
  = Return (Sparse.store ws0 i w).
Proof.
  intros Hws0.
  destruct (proj1 (calcComponentWeights_total
                     (Sparse.store setWeights i (Some w)) groups fixity))
    as (ws & Hws).
  { intros j Hj. rewrite Sparse_get_store in Hj.
    destruct (decide (i = j)) as [|Hne]; [done|].
    destruct (calcComponentWeights_Return _ _ _ _ Hws0) as (_ & Hall).
    destruct (Hall j) as (_ & Hunset).
    destruct (Hunset Hj) as (group & Hg & Hne' & _). eauto. }
  rewrite Hws. f_equal.
  unfold calcComponentWeights, map_throwing_sparse in Hws, Hws0.
  apply map_throwing_Return in Hws as (Hlen & Hall).
  apply map_throwing_Return in Hws0 as (Hlen0 & Hall0).
  rewrite Sparse_store_length in Hlen.
  apply list_eq. intros j. rewrite Sparse_store_lookup.
  destruct (decide (j = i)) as [->|Hne].
  { destruct (Hall i (Some (Some w))) as (y & Hy & Hwsi).
    - by rewrite Sparse_store_lookup, decide_True.
    - cbn [componentWeight obind] in Hy. by injection Hy as <-. }
  rewrite Hlen0.
  destruct (decide (j < length setWeights)%nat) as [Hj|Hj].
  - destruct (lookup_lt_is_Some_2 _ _ Hj) as [slot Hslot].
    destruct (Hall j slot) as (y & Hy & Hwsj).
    { rewrite Sparse_store_lookup, decide_False by done.
      by rewrite decide_True. }
    destruct (Hall0 j slot Hslot) as (y0 & Hy0 & Hws0j).
    rewrite Hwsj, Hws0j. congruence.
  - destruct (decide (j < i)%nat) as [Hlt|Hge].
    + destruct (Hall j None) as (y & Hy & Hwsj).
      { rewrite Sparse_store_lookup, decide_False by done.
        rewrite decide_False by done. by rewrite decide_True. }
      injection Hy as <-. exact Hwsj.
    + apply lookup_ge_None_2. lia.
Qed.

(** A resolution that returns gives the explicit weight stored at [i]. *)
Lemma store_resolution_get (setWeights : list (option (option number)))
    (groups : list (list Component)) (fixity : Component → bool)
    (i : nat) (w : number) (ws : list value) :
  calcComponentWeights (Sparse.store setWeights i (Some w)) groups fixity
  = Return ws →
  Sparse.get ws i = Some w.
Proof.
  intros Hws.
  destruct (calcComponentWeights_Return _ _ _ _ Hws) as (_ & Hall).
  destruct (Hall i) as (Hset & _). apply Hset.
  by rewrite Sparse_get_store, decide_True.
Qed.

(** X12.  [rowWeight(i, w)] returns and changes nothing but the array of
    row weights, where it stores [w] at [i].  A resolution of the row
    weights that returns afterwards gives [w] at [i]; and when the
    resolution returned before the call, it returns afterwards too, with
    [w] at [i] and every other weight as it was resolved before.  The same
    holds for [colWeight(i, w)], the array of column weights and the
    columns of the transposed grid. *)
Theorem weight_setters_override (t : Table) (i : nat) (w : number) :
  let tr := set_rowWeights (Sparse.store (rowWeights t) i (Some w)) t in
  let tc := set_colWeights (Sparse.store (colWeights t) i (Some w)) t in
  (rowWeight i w t = (Return tt, tr)
   ∧ (∀ ws, calcComponentWeights (rowWeights tr) (rows tr) cIsFixedHeight
            = Return ws → Sparse.get ws i = Some w)
   ∧ (∀ ws0, calcComponentWeights (rowWeights t) (rows t) cIsFixedHeight
             = Return ws0 →
             calcComponentWeights (rowWeights tr) (rows tr) cIsFixedHeight
             = Return (Sparse.store ws0 i w)))
  ∧ (colWeight i w t = (Return tt, tc)
     ∧ (∀ ws, calcComponentWeights (colWeights tc) (d3.transpose (rows tc))
                cIsFixedWidth = Return ws → Sparse.get ws i = Some w)
     ∧ (∀ ws0, calcComponentWeights (colWeights t) (d3.transpose (rows t))
                 cIsFixedWidth = Return ws0 →
               calcComponentWeights (colWeights tc) (d3.transpose (rows tc))
                 cIsFixedWidth = Return (Sparse.store ws0 i w))).
Proof.
  intros tr tc. split.
  - split; [done|]. split.
    + intros ws. apply store_resolution_get.
    + intros ws0. apply store_resolution.
  - split; [done|]. split.
    + intros ws. apply store_resolution_get.
    + intros ws0. apply store_resolution.
Qed.

(** X12 on a label next to a plot: the unset weight of the row resolves to
    1, and to 3 once [rowWeight(0, 3)] was called. *)
Lemma weight_setters_override_witness :
  let a := mkComponent "Label" (num 10) (num 20) true true in
  let b := mkComponent "Plot" (num 30) (num 40) false false in
  let t := constructor [[Some a; Some b]] in
  let tr := (rowWeight 0 (num 3) t).2 in
  calcComponentWeights (rowWeights t) (rows t) cIsFixedHeight = Return [Some 1]
  ∧ calcComponentWeights (rowWeights tr) (rows tr) cIsFixedHeight
    = Return (Sparse.store [Some 1] 0 (num 3)).
Proof.
  intros a b t tr.
  assert (Hbefore : calcComponentWeights (rowWeights t) (rows t) cIsFixedHeight
                    = Return [Some 1]) by reflexivity.
  split; [exact Hbefore|].
  destruct (weight_setters_override t 0 (num 3)) as ((_ & _ & Hafter) & _).
  exact (Hafter [Some 1] Hbefore).
Defined.

(** ** Fixed rows and columns take no free space *)

(** A sum of numbers none of which is negative, and one of which is
    positive, is positive. *)
Lemma d3_sum_pos (weights : list value) (j : nat) (w : number) :
  (∀ i w, Sparse.get weights i = Some w → 0 ≤ w) →
  Sparse.get weights j = Some w → 0 < w → 0 < d3.sum weights.
Proof.
  revert j. induction weights as [|[x|] weights IH]; intros j Hall Hj Hw.
  - by destruct j.
  - rewrite d3_sum_cons_Some.
    assert (Hrest : 0 ≤ d3.sum weights).
    { apply d3_sum_nonneg. intros i v. apply (Hall (S i)). }
    destruct j as [|j].
    + injection Hj as ->.
      apply Qclt_le_trans with (w + 0).
      * by replace (w + 0) with w by ring.
      * by apply Qcplus_le_mono_l.
    + apply Qclt_le_trans with (0 + d3.sum weights).
      * replace (0 + d3.sum weights) with (d3.sum weights) by ring.
        apply (IH j); [|exact Hj|exact Hw].
        intros i v. apply (Hall (S i)).
      * apply Qcplus_le_mono_r. by apply (Hall 0%nat).
  - rewrite d3_sum_cons_None. destruct j as [|j]; [done|].
    apply (IH j); [|exact Hj|exact Hw]. intros i v. apply (Hall (S i)).
Qed.

(** The share of a group whose weight is unset and whose components are
    all fixed is zero, once another group with an unset weight holds a
    component that is not fixed. *)
Lemma fixed_group_share (setWeights : list (option (option number)))
    (groups : list (list Component)) (fixity : Component → bool)
    (ws : list value) (freeSpace : number) (i j : nat)
    (group group' : list Component) :
  nonnegative setWeights →
  calcComponentWeights setWeights groups fixity = Return ws →
  Sparse.get setWeights i = Some None → groups !! i = Some group →
  (∀ c, c ∈ group → fixity c = true) →
  Sparse.get setWeights j = Some None → groups !! j = Some group' →
  (∃ c, c ∈ group' ∧ fixity c = false) →
  Sparse.get (calcProportionalSpace ws freeSpace) i = Some 0.
Proof.
  intros Hnonneg Hret Hi Hgroup Hfixed Hj Hgroup' Hfree.
  destruct (calcComponentWeights_Return _ _ _ _ Hret) as (_ & Hall).
  destruct (Hall i) as (_ & Hunset).
  destruct (Hunset Hi) as (g & Hg & _ & Hzero & _).
  rewrite Hgroup in Hg. injection Hg as <-. specialize (Hzero Hfixed).
  destruct (Hall j) as (_ & Hunset').
  destruct (Hunset' Hj) as (g' & Hg' & _ & _ & Hone).
  rewrite Hgroup' in Hg'. injection Hg' as <-. specialize (Hone Hfree).
  assert (Hsum : 0 < d3.sum ws).
  { apply (d3_sum_pos ws j 1); [|exact Hone|done].
    apply (resolved_weights_nonneg _ _ _ _ Hnonneg Hret). }
  unfold calcProportionalSpace.
  rewrite decide_False.
  - unfold Sparse.get in *. rewrite Sparse_map_lookup.
    destruct (ws !! i) as [[v|]|]; simpl in Hzero |- *; try done.
    injection Hzero as ->. f_equal. unfold Qcdiv. ring.
  - intros Hz. rewrite Hz in Hsum. by apply Qclt_not_le in Hsum.
Qed.

Lemma vadd_0_l (v : value) : vadd (Some 0) v = v.
Proof. destruct v as [m|]; [|done]. simpl. f_equal. ring. Qed.

(** X13.  In a layout that returns, with no negative explicit weight, a row
    without explicit weight whose components are all of fixed height gets
    exactly the largest [rowMinimum()] of its components, whatever the space
    available, as soon as another row without explicit weight holds a
    component that is not of fixed height; the same holds for the width of a
    column of components of fixed width. *)
Theorem fixed_groups_keep_minimum (x y w h : number) (t t' : Table)
    (log log' : list LayoutCall) :
  nonnegative (rowWeights t) → nonnegative (colWeights t) →
  computeLayout x y w h (t, log) = (Return tt, (t', log')) →
  ∃ colWidth rowHeight,
    log' = log ++ expectedCalls t colWidth rowHeight
    ∧ (∀ r r' row row',
         rows t !! r = Some row → Sparse.get (rowWeights t) r = Some None →
         (∀ c, c ∈ row → cIsFixedHeight c = true) →
         rows t !! r' = Some row' → Sparse.get (rowWeights t) r' = Some None →
         (∃ c, c ∈ row' ∧ cIsFixedHeight c = false) →
         rowHeight r = d3.max gtb row cRowMinimum)
    ∧ (∀ c c' col col',
         d3.transpose (rows t) !! c = Some col →
         Sparse.get (colWeights t) c = Some None →
         (∀ a, a ∈ col → cIsFixedWidth a = true) →
         d3.transpose (rows t) !! c' = Some col' →
         Sparse.get (colWeights t) c' = Some None →
         (∃ a, a ∈ col' ∧ cIsFixedWidth a = false) →
         colWidth c = d3.max gtb col cColMinimum).
Proof.
  intros Hrw Hcw Hret.
  apply computeLayout_Return in Hret
    as (rowWeights' & colWeights' & Hrows & Hcols & _ & _ & _ & ->).
  eexists _, _. split; [reflexivity|]. split.
  - intros r r' row row' Hrow Hr Hfixed Hrow' Hr' Hfree. cbv beta.
    rewrite (fixed_group_share _ _ _ _ _ r r' row row' Hrw Hrows
               Hr Hrow Hfixed Hr' Hrow' Hfree).
    rewrite vadd_0_l. unfold Sparse.get, rowMins.
    by rewrite list_lookup_fmap, Hrow.
  - intros c c' col col' Hcol Hc Hfixed Hcol' Hc' Hfree. cbv beta.
    rewrite (fixed_group_share _ _ _ _ _ c c' col col' Hcw Hcols
               Hc Hcol Hfixed Hc' Hcol' Hfree).
    rewrite vadd_0_l. unfold Sparse.get, colMins.
    by rewrite list_lookup_fmap, Hcol.
Qed.

(** X13 on a title of fixed height above a plot: the title keeps its 20
    pixels of height in a layout of 100 by 300. *)
Lemma fixed_groups_keep_minimum_witness :
  let title := mkComponent "Title" (num 20) (num 50) true true in
  let plot := mkComponent "Plot" (num 30) (num 40) false false in
  let t := constructor [[Some title]; [Some plot]] in
  let r := computeLayout 0 0 (num 100) (num 300) (t, []) in
  ∃ colWidth rowHeight,
    r.2.2 = [] ++ expectedCalls t colWidth rowHeight
    ∧ rowHeight 0%nat = Some (num 20).
Proof.
  intros title plot t r.
  destruct (fixed_groups_keep_minimum 0 0 (num 100) (num 300) t r.2.1 [] r.2.2)
    as (colWidth & rowHeight & Hlog & Hrows & _).
  - intros [|[|i]] w Hw; done.
  - intros [|[|i]] w Hw; done.
  - compute_done.
  - exists colWidth, rowHeight. split; [exact Hlog|].
    rewrite (Hrows 0%nat 1%nat [title] [plot]); try done.
    + intros c ->%list_elem_of_singleton. done.
    + exists plot. split; [apply list_elem_of_here|done].
Defined.

(** ** [addComponent] on two cells *)

Lemma table_ext (t t' : Table) :
  rowPadding t = rowPadding t' → colPadding t = colPadding t' →
  rows t = rows t' →
  rowMinimums t = rowMinimums t' → colMinimums t = colMinimums t' →
  rowWeights t = rowWeights t' → colWeights t = colWeights t' →
  nRows t = nRows t' → nCols t = nCols t' → element t = element t' →
  t = t'.
Proof. destruct t, t'. cbn. congruence. Qed.

(** Two arrays with holes of the same length that read the same are the
    same. *)
Lemma sparse_ext {A} (a b : list (option A)) :
  length a = length b → (∀ i, Sparse.get a i = Sparse.get b i) → a = b.
Proof.
  intros Hlen Hget. apply list_eq. intros i. specialize (Hget i).
  unfold Sparse.get in Hget.
  destruct (a !! i) as [x|] eqn:Ha, (b !! i) as [y|] eqn:Hb.
  - simpl in Hget. by subst.
  - apply lookup_lt_Some in Ha. apply lookup_ge_None_1 in Hb. lia.
  - apply lookup_lt_Some in Hb. apply lookup_ge_None_1 in Ha. lia.
  - done.
Qed.

(** Two grids of the same number of rows of [m] slots that hold the same
    components are the same. *)
Lemma grid_ext (m : nat) (a b : list (list Component)) :
  length a = length b → rectangular m a → rectangular m b →
  (∀ r c, cell a r c = cell b r c) → a = b.
Proof.
  unfold rectangular. rewrite !Forall_lookup.
  intros Hlen Ha Hb Hcell. apply list_eq. intros r.
  destruct (a !! r) as [x|] eqn:Hx, (b !! r) as [y|] eqn:Hy.
  - f_equal. apply list_eq. intros c. specialize (Hcell r c).
    unfold cell in Hcell. by rewrite Hx, Hy in Hcell.
  - apply lookup_lt_Some in Hx. apply lookup_ge_None_1 in Hy. lia.
  - apply lookup_lt_Some in Hy. apply lookup_ge_None_1 in Hx. lia.
  - done.
Qed.

(** What [addComponent] returns or throws on a table that is not
    anchored. *)
Lemma addComponent_outcome (row col : nat) (component : Component) (t : Table) :
  element t = None →
  (addComponent row col component t).1
  = if decide (occupied t row col) then Throw CellOccupied else Return tt.
Proof.
  intros He. rewrite addComponent_spec.
  rewrite decide_False by (by intros H; apply H). cbv zeta.
  destruct (decide (cName (default newComponent (cell (rows t) row col))
                    ≠ "Component")) as [Hocc|Hfree].
  - apply occupied_test in Hocc. by rewrite decide_True.
  - rewrite <- occupied_test in Hfree. by rewrite decide_False.
Qed.

(** [addComponent] does not change whether another cell is occupied. *)
Lemma addComponent_occupied_other (row col : nat) (component : Component)
    (t : Table) (r c : nat) :
  element t = None → (r, c) ≠ (row, col) →
  occupied (addComponent row col component t).2 r c ↔ occupied t r c.
Proof.
  intros He Hne. unfold occupied. rewrite addComponent_cell by done.
  destruct (decide _); [|done].
  destruct (cell (rows t) r c) as [x|]; simpl; [done|].
  split; [|done]. intros H. by apply H.
Qed.

(** The fields of the table after [addComponent], other than the grid. *)
Lemma addComponent_fields (row col : nat) (component : Component) (t : Table) :
  counters_cover t → element t = None →
  let n := (Nat.max row (nRows t) + 1)%nat in
  let m := (Nat.max col (nCols t) + 1)%nat in
  let t' := (addComponent row col component t).2 in
  length (rowWeights t')
  = (if decide (length (rows t) < n)%nat
     then Nat.max (length (rowWeights t)) n else length (rowWeights t))
  ∧ (∀ i, Sparse.get (rowWeights t') i
          = if decide (length (rows t) ≤ i < n)%nat then Some None
            else Sparse.get (rowWeights t) i)
  ∧ length (colWeights t') = Nat.max (length (colWeights t)) m
  ∧ (∀ j, Sparse.get (colWeights t') j
          = if decide (j < m)%nat
            then Some (default None (Sparse.get (colWeights t) j))
            else Sparse.get (colWeights t) j)
  ∧ element t' = None
  ∧ rowPadding t' = rowPadding t ∧ colPadding t' = colPadding t
  ∧ rowMinimums t' = rowMinimums t ∧ colMinimums t' = colMinimums t.
Proof.
  intros Hcov He n m t'.
  destruct (addComponent_state row col component t He)
    as (_ & _ & Hrw & Hcw & _ & _ & Hel & Hrp & Hcp & Hrm & Hcm).
  destruct (grown_spec row col t)
    as (_ & _ & Hgrw & Hgcw & _ & _ & Hgel & Hgrp & Hgcp & Hgrm & Hgcm).
  destruct (padTableToSize_weights_length n m
              (set_nCols (Nat.max col (nCols t))
                 (set_nRows (Nat.max row (nRows t)) t))) as (HlenR & HlenC).
  cbn [rows rowWeights colWeights set_nCols set_nRows] in HlenR, HlenC.
  fold (grown row col t) in HlenR, HlenC. cbv zeta in *.
  subst n m t'.
  split_and!.
  - by rewrite Hrw.
  - intros i. by rewrite Hrw.
  - by rewrite Hcw.
  - intros j. by rewrite Hcw.
  - by rewrite Hel, Hgel.
  - by rewrite Hrp.
  - by rewrite Hcp.
  - by rewrite Hrm.
  - by rewrite Hcm.
Qed.

(** X14.  Two calls of [addComponent] on different cells of a table that is
    not anchored can be made in either order: each call returns or throws
    as it would on the table alone, and both orders leave the same table,
    grid, weights and counters. *)
Theorem addComponent_commutes (r1 c1 r2 c2 : nat) (a b : Component) (t : Table) :
  counters_cover t → element t = None → (r1, c1) ≠ (r2, c2) →
  let t1 := (addComponent r1 c1 a t).2 in
  let t2 := (addComponent r2 c2 b t).2 in
  (addComponent r2 c2 b t1).2 = (addComponent r1 c1 a t2).2
  ∧ (addComponent r2 c2 b t1).1 = (addComponent r2 c2 b t).1
  ∧ (addComponent r1 c1 a t2).1 = (addComponent r1 c1 a t).1.
Proof.
  intros Hcov He Hne t1 t2.
  assert (Hne' : (r2, c2) ≠ (r1, c1)) by congruence.
  pose proof (addComponent_occupied_other r1 c1 a t r2 c2 He Hne') as Hocc2.
  pose proof (addComponent_occupied_other r2 c2 b t r1 c1 He Hne) as Hocc1.
  fold t1 in Hocc2. fold t2 in Hocc1.
  destruct (addComponent_fields r1 c1 a t Hcov He)
    as (HrwL1 & Hrw1 & HcwL1 & Hcw1 & He1 & Hrp1 & Hcp1 & Hrm1 & Hcm1).
  destruct (addComponent_fields r2 c2 b t Hcov He)
    as (HrwL2 & Hrw2 & HcwL2 & Hcw2 & He2 & Hrp2 & Hcp2 & Hrm2 & Hcm2).
  destruct (addComponent_rectangular r1 c1 a t Hcov He)
    as (Hlen1 & Hrect1 & HnR1 & HnC1).
  destruct (addComponent_rectangular r2 c2 b t Hcov He)
    as (Hlen2 & Hrect2 & HnR2 & HnC2).
  pose proof (addComponent_counters_cover r1 c1 a t Hcov) as Hcov1.
  pose proof (addComponent_counters_cover r2 c2 b t Hcov) as Hcov2.
  cbv zeta in *. fold t1 in HrwL1, Hrw1, HcwL1, Hcw1, He1, Hrp1, Hcp1, Hrm1,
    Hcm1, Hlen1, Hrect1, HnR1, HnC1, Hcov1.
  fold t2 in HrwL2, Hrw2, HcwL2, Hcw2, He2, Hrp2, Hcp2, Hrm2,
    Hcm2, Hlen2, Hrect2, HnR2, HnC2, Hcov2.
  destruct (addComponent_fields r2 c2 b t1 Hcov1 He1)
    as (HrwL12 & Hrw12 & HcwL12 & Hcw12 & He12 & Hrp12 & Hcp12 & Hrm12 & Hcm12).
  destruct (addComponent_fields r1 c1 a t2 Hcov2 He2)
    as (HrwL21 & Hrw21 & HcwL21 & Hcw21 & He21 & Hrp21 & Hcp21 & Hrm21 & Hcm21).
  destruct (addComponent_rectangular r2 c2 b t1 Hcov1 He1)
    as (Hlen12 & Hrect12 & HnR12 & HnC12).
  destruct (addComponent_rectangular r1 c1 a t2 Hcov2 He2)
    as (Hlen21 & Hrect21 & HnR21 & HnC21).
  cbv zeta in *.
  set (t12 := (addComponent r2 c2 b t1).2) in *.
  set (t21 := (addComponent r1 c1 a t2).2) in *.
  destruct Hcov as (HcovR & _).
  split_and!.
  - apply table_ext.
    + by rewrite Hrp12, Hrp21, Hrp1, Hrp2.
    + by rewrite Hcp12, Hcp21, Hcp1, Hcp2.
    + apply (grid_ext (Nat.max c2 (nCols t1) + 1)).
      * rewrite Hlen12, Hlen21, HnR1, HnR2. clear. lia.
      * exact Hrect12.
      * replace (Nat.max c2 (nCols t1) + 1)%nat
          with (Nat.max c1 (nCols t2) + 1)%nat; [exact Hrect21|].
        rewrite HnC1, HnC2. clear. lia.
      * intros r c.
        pose proof (addComponent_cells r1 c1 a t r c He) as Hc1.
        pose proof (addComponent_cells r2 c2 b t r c He) as Hc2.
        pose proof (addComponent_cells r2 c2 b t1 r c He1) as Hc12.
        pose proof (addComponent_cells r1 c1 a t2 r c He2) as Hc21.
        fold t1 in Hc1. fold t2 in Hc2. fold t12 in Hc12. fold t21 in Hc21.
        rewrite Hc12, Hc21, Hc1, Hc2, HnR1, HnC1, HnR2, HnC2.
        clear -Hne Hocc1 Hocc2.
        destruct (cell (rows t) r c) as [x|] eqn:Hx; cbn [default];
          repeat case_decide; simplify_eq; try done; try lia; try tauto;
          destruct_and?; congruence.
    + by rewrite Hrm12, Hrm21, Hrm1, Hrm2.
    + by rewrite Hcm12, Hcm21, Hcm1, Hcm2.
    + apply sparse_ext.
      * rewrite HrwL12, HrwL21, HrwL1, HrwL2, Hlen1, Hlen2, HnR1, HnR2.
        clear -HcovR. repeat case_decide; lia.
      * intros i. rewrite Hrw12, Hrw21, Hrw1, Hrw2, Hlen1, Hlen2, HnR1, HnR2.
        clear -HcovR. repeat case_decide; try done; lia.
    + apply sparse_ext.
      * rewrite HcwL12, HcwL21, HcwL1, HcwL2, HnC1, HnC2. clear. lia.
      * intros j. rewrite Hcw12, Hcw21, Hcw1, Hcw2, HnC1, HnC2.
        clear. destruct (Sparse.get (colWeights t) j);
          repeat case_decide; try done; lia.
    + rewrite HnR12, HnR21, HnR1, HnR2. clear. lia.
    + rewrite HnC12, HnC21, HnC1, HnC2. clear. lia.
    + by rewrite He12, He21.
  - subst t12. rewrite !addComponent_outcome by done.
    destruct (decide (occupied t1 r2 c2)), (decide (occupied t r2 c2));
      try done; tauto.
  - subst t21. rewrite !addComponent_outcome by done.
    destruct (decide (occupied t2 r1 c1)), (decide (occupied t r1 c1));
      try done; tauto.
Qed.

(** X14 on a label and a plot added to an empty table, in both orders. *)
Lemma addComponent_commutes_witness :
  let label := mkComponent "Label" (num 10) (num 20) true true in
  let plot := mkComponent "Plot" (num 30) (num 40) false false in
  let t := constructor [] in
  (addComponent 1 0 plot (addComponent 0 2 label t).2).2
  = (addComponent 0 2 label (addComponent 1 0 plot t).2).2.
Proof.
  intros label plot t.
  destruct (addComponent_commutes 0 2 1 0 label plot t) as (Heq & _).
  - compute_done.
  - done.
  - done.
  - exact Heq.
Defined.

(** ** A layout in the minimum size *)

(** A size made of a zero share is the minimum. *)
Lemma zero_share_size (weights minimums : list value) (k : nat) :
  Forall is_Some weights → length weights = length minimums →
  vadd (Sparse.get (calcProportionalSpace weights 0) k)
       (Sparse.get minimums k)
  = Sparse.get minimums k.
Proof.
  intros Hdense Hlen. rewrite calcProportionalSpace_zero.
  unfold Sparse.get. rewrite Sparse_map_lookup.
  destruct (weights !! k) as [v|] eqn:Hv.
  - rewrite Forall_lookup in Hdense. destruct (Hdense k v Hv) as [x ->].
    simpl. apply vadd_0_l.
  - apply lookup_ge_None_1 in Hv. by rewrite lookup_ge_None_2 by lia.
Qed.

(** X16.  The minimum size is tight: on a table whose arrays of weights
    follow the grid, a layout in exactly [colMinimum()] by [rowMinimum()]
    that returns has given every column its minimum width and every row
    its minimum height, whatever the weights. *)
Theorem computeLayout_at_minimum (x y : number) (t t' : Table)
    (log log' : list LayoutCall) :
  aligned t →
  computeLayout x y (totalColMinimum t) (totalRowMinimum t) (t, log)
  = (Return tt, (t', log')) →
  t' = refreshed t
  ∧ log' = log ++ expectedCalls t (Sparse.get (colMins t))
                    (Sparse.get (rowMins t)).
Proof.
  intros (HrwLen & HrwDense & HcwLen & HcwDense) Hret.
  apply computeLayout_Return in Hret
    as (rws & cws & Hrws & Hcws & _ & _ & -> & ->).
  destruct (calcComponentWeights_dense _ _ _ _ HrwDense Hrws) as (Hrd & Hrl).
  destruct (calcComponentWeights_dense _ _ _ _ HcwDense Hcws) as (Hcd & Hcl).
  split; [done|]. f_equal.
  apply expectedCalls_ext; intros k.
  - replace (totalColMinimum t - totalColMinimum t) with 0 by ring.
    apply zero_share_size; [done|].
    rewrite Hcl, HcwLen. unfold colMins. by rewrite length_fmap.
  - replace (totalRowMinimum t - totalRowMinimum t) with 0 by ring.
    apply zero_share_size; [done|].
    rewrite Hrl, HrwLen. unfold rowMins. by rewrite length_fmap.
Qed.

(** X16 on a table of four components, with a padding of 4 between the
    rows and of 2 between the columns: the minimum size is 32 by 44. *)
Lemma computeLayout_at_minimum_witness :
  let a := mkComponent "A" (num 10) (num 10) false false in
  let b := mkComponent "B" (num 10) (num 20) true false in
  let c := mkComponent "C" (num 30) (num 10) false true in
  let d := mkComponent "D" (num 30) (num 20) false false in
  let t := (padding (num 4) (num 2)
              (constructor [[Some a; Some b]; [Some c; Some d]])).2 in
  let r := computeLayout 0 0 (totalColMinimum t) (totalRowMinimum t) (t, []) in
  totalColMinimum t = num 32 ∧ totalRowMinimum t = num 44
  ∧ r.2.2 = [] ++ expectedCalls t (Sparse.get (colMins t))
                    (Sparse.get (rowMins t)).
Proof.
  intros a b c d t r.
  split; [compute_done|]. split; [compute_done|].
  destruct (computeLayout_at_minimum 0 0 t r.2.1 [] r.2.2) as (_ & Hlog).
  - compute_done.
  - compute_done.
  - exact Hlog.
Defined.
